(** * makecrates.py: scaffolding of the per-family device crates

    A shallow embedding of [scripts/makecrates.py] and the properties of
    its collection pass, its renderers and its run.

    Python [str] values are modelled as [string] (characters 0..255, compared
    by code as Python compares code points); [str.lower] and [str.upper] act
    on the ASCII letters.  The dictionary [devices] of [main] keeps its
    insertion order, which decides the order in which families are listed
    and processed, so it is an association list; the two tables that are
    only looked up by key are finite maps. *)

From Stdlib Require Import String Ascii List.
From stdpp Require Import base option list strings sorting gmap.

Local Open Scope string_scope.

(** ** Python string primitives *)

Module Py.

Definition dq : string := String "034"%char EmptyString.
Definition sq : string := String "039"%char EmptyString.
Definition nl : string := String "010"%char EmptyString.

(** A double-quoted fragment of a template. *)
Definition q (s : string) : string := dq +:+ s +:+ dq.

(** The text of a triple-quoted literal whose lines are [ls] and whose
    closing quotes stand on a line of their own. *)
Fixpoint unlines (ls : list string) : string :=
  match ls with
  | [] => EmptyString
  | l :: ls' => l +:+ nl +:+ unlines ls'
  end.

(** [sep.join(l)] *)
Fixpoint join (sep : string) (l : list string) : string :=
  match l with
  | [] => EmptyString
  | [x] => x
  | x :: l' => x +:+ sep +:+ join sep l'
  end.

Fixpoint map_chars (f : ascii → ascii) (s : string) : string :=
  match s with
  | EmptyString => EmptyString
  | String c s' => String (f c) (map_chars f s')
  end.

Definition lower_char (c : ascii) : ascii :=
  let n := nat_of_ascii c in
  if (65 <=? n)%nat && (n <=? 90)%nat then ascii_of_nat (n + 32) else c.

Definition upper_char (c : ascii) : ascii :=
  let n := nat_of_ascii c in
  if (97 <=? n)%nat && (n <=? 122)%nat then ascii_of_nat (n - 32) else c.

(** [s.lower()] and [s.upper()] *)
Definition lower : string → string := map_chars lower_char.
Definition upper : string → string := map_chars upper_char.

(** [s[:n]] *)
Fixpoint take_chars (n : nat) (s : string) : string :=
  match n, s with
  | S n', String c s' => String c (take_chars n' s')
  | _, _ => EmptyString
  end.

(** [s[n:]] *)
Fixpoint drop_chars (n : nat) (s : string) : string :=
  match n, s with
  | S n', String c s' => drop_chars n' s'
  | _, _ => s
  end.

(** [str.isspace] on one character below 128. *)
Definition is_space (c : ascii) : bool :=
  let n := nat_of_ascii c in
  ((9 <=? n)%nat && (n <=? 13)%nat) || ((28 <=? n)%nat && (n <=? 32)%nat).

Fixpoint lstrip (s : string) : string :=
  match s with
  | EmptyString => EmptyString
  | String c s' => if is_space c then lstrip s' else s
  end.

Definition rstrip (s : string) : string :=
  String.rev (lstrip (String.rev s)).

(** [s.strip()] *)
Definition strip (s : string) : string := rstrip (lstrip s).

(** [sorted(l)] on a list of strings.  Python's sort is stable; on strings
    two equal elements cannot be told apart, so any function that returns
    the ordered rearrangement is the same function ([sorted_unique]
    below). *)
Definition sorted (l : list string) : list string := merge_sort String.le l.

(** Exceptions the script can raise. *)
Inductive exn : Type :=
| KeyError (key : string)
| IndexError
| ValueError
| TableLoadError
| KeyboardInterrupt
| EOFError.

Definition result (A : Type) : Type := exn + A.

Definition ret {A} (a : A) : result A := inr a.
Definition raise {A} (e : exn) : result A := inl e.
Definition bind {A B} (m : result A) (k : A → result B) : result B :=
  match m with
  | inl e => inl e
  | inr a => k a
  end.

(** *** [str.format]

    The replacement fields the script uses are [{}] (the next positional
    argument), [{0}] (a positional argument by index) and [{name}] (a
    keyword argument); [{{] and [}}] stand for one brace. *)
Inductive piece : Type :=
| Lit (c : ascii)
| Field (name : string).

Fixpoint parse_go (field : option string) (s : string) : option (list piece) :=
  match field, s with
  | None, EmptyString => Some []
  | None, String "{" (String "{" s') => cons (Lit "{") <$> parse_go None s'
  | None, String "{" s' => parse_go (Some EmptyString) s'
  | None, String "}" (String "}" s') => cons (Lit "}") <$> parse_go None s'
  | None, String "}" _ => None
  | None, String c s' => cons (Lit c) <$> parse_go None s'
  | Some _, EmptyString => None
  | Some name, String "}" s' => cons (Field name) <$> parse_go None s'
  | Some _, String "{" _ => None
  | Some name, String c s' => parse_go (Some (name +:+ String c EmptyString)) s'
  end.

Definition parse : string → option (list piece) := parse_go None.

Definition is_digit (c : ascii) : bool :=
  let n := nat_of_ascii c in (48 <=? n)%nat && (n <=? 57)%nat.

Fixpoint index_of (acc : nat) (s : string) : option nat :=
  match s with
  | EmptyString => Some acc
  | String c s' =>
      if is_digit c then index_of (10 * acc + (nat_of_ascii c - 48)) s'
      else None
  end.

Fixpoint kw_lookup (name : string) (kwargs : list (string * string)) : option string :=
  match kwargs with
  | [] => None
  | (k, v) :: kwargs' => if String.eqb k name then Some v else kw_lookup name kwargs'
  end.

Definition field_value (auto : nat) (name : string)
    (args : list string) (kwargs : list (string * string)) : result string :=
  match name with
  | EmptyString =>
      match args !! auto with Some v => ret v | None => raise IndexError end
  | _ =>
      match index_of 0 name with
      | Some i =>
          match args !! i with Some v => ret v | None => raise IndexError end
      | None =>
          match kw_lookup name kwargs with
          | Some v => ret v
          | None => raise (KeyError name)
          end
      end
  end.

Fixpoint render (auto : nat) (ps : list piece)
    (args : list string) (kwargs : list (string * string)) : result string :=
  match ps with
  | [] => ret EmptyString
  | Lit c :: ps' =>
      bind (render auto ps' args kwargs) (λ rest, ret (String c rest))
  | Field name :: ps' =>
      bind (field_value auto name args kwargs) (λ v,
      bind (render (match name with EmptyString => S auto | _ => auto end)
              ps' args kwargs) (λ rest,
      ret (v +:+ rest)))
  end.

(** [tpl.format(...)] with positional arguments [args] and keyword
    arguments [kwargs]. *)
Definition format (tpl : string)
    (args : list string) (kwargs : list (string * string)) : result string :=
  match parse tpl with
  | Some ps => render 0 ps args kwargs
  | None => raise ValueError
  end.

(** *** Where a template holds another

    [template_has tpl sub] tells that the pieces of [sub] stand next to one
    another among the pieces of [tpl], [template_ends tpl sub] that they are
    its last pieces, and [count_field name tpl] counts the fields [name] of
    [tpl]. *)
#[global] Instance piece_eq_dec : EqDecision piece.
Proof. solve_decision. Defined.

Fixpoint starts_with_pieces (u ps : list piece) : bool :=
  match u, ps with
  | [], _ => true
  | x :: u', y :: ps' => bool_decide (x = y) && starts_with_pieces u' ps'
  | _ :: _, [] => false
  end.

Fixpoint has_pieces (u ps : list piece) : bool :=
  starts_with_pieces u ps ||
  match ps with
  | [] => false
  | _ :: ps' => has_pieces u ps'
  end.

Fixpoint ends_with_pieces (u ps : list piece) : bool :=
  bool_decide (ps = u) ||
  match ps with
  | [] => false
  | _ :: ps' => ends_with_pieces u ps'
  end.

Definition template_has (tpl sub : string) : bool :=
  match parse tpl, parse sub with
  | Some ps, Some u => has_pieces u ps
  | _, _ => false
  end.

Definition template_ends (tpl sub : string) : bool :=
  match parse tpl, parse sub with
  | Some ps, Some u => ends_with_pieces u ps
  | _, _ => false
  end.

Definition count_field (name : string) (tpl : string) : nat :=
  match parse tpl with
  | Some ps => length (filter (λ p, p = Field name) ps)
  | None => 0
  end.

(** [s in text] and [text.endswith(s)] as propositions. *)
Definition contains (text s : string) : Prop :=
  ∃ a b, text = a +:+ s +:+ b.

Definition has_suffix (text s : string) : Prop :=
  ∃ a, text = a +:+ s.

(** [str(l)] of a list of strings; the elements of the fixed table hold no
    quote, backslash or control character, so each is shown between
    single quotes as it is. *)
Definition str_of_list (l : list string) : string :=
  "[" +:+ join ", " ((λ s, sq +:+ s +:+ sq) <$> l) +:+ "]".

(** [s.endswith(suffix)] *)
Fixpoint ends_with (suffix s : string) : bool :=
  String.eqb s suffix ||
  match s with
  | EmptyString => false
  | String _ s' => ends_with suffix s'
  end.

(** [os.path.join(a, b)] *)
Definition starts_with_sep (s : string) : bool :=
  match s with String "/" _ => true | _ => false end.

Fixpoint ends_with_sep (s : string) : bool :=
  match s with
  | EmptyString => false
  | String c EmptyString => Ascii.eqb c "/"
  | String _ s' => ends_with_sep s'
  end.

Definition path_join (a b : string) : string :=
  if starts_with_sep b then b
  else if String.eqb a EmptyString || ends_with_sep a then a +:+ b
  else a +:+ "/" +:+ b.

(** [os.path.basename(p)]: what follows the last separator. *)
Fixpoint basename_go (cur : string) (p : string) : string :=
  match p with
  | EmptyString => cur
  | String "/" p' => basename_go EmptyString p'
  | String c p' => basename_go (cur +:+ String c EmptyString) p'
  end.

Definition basename : string → string := basename_go EmptyString.

End Py.

(** ** The script *)

Module Makecrates.
Import Py.

Declare Scope result_scope.
Delimit Scope result_scope with result.
Notation "'let*' x ':=' m 'in' k" := (bind m (λ x, k))
  (at level 10, x name, m at level 100, k at level 200) : result_scope.
Local Open Scope result_scope.

Fixpoint mapM {A B} (f : A → result B) (l : list A) : result (list B) :=
  match l with
  | [] => ret []
  | a :: l' =>
      let* b := f a in
      let* bs := mapM f l' in
      ret (b :: bs)
  end.

Definition VERSION : string := "0.9.0".
Definition SVD2RUST_VERSION : string := "0.16.1".

Definition CRATE_DOC_FEATURES : gmap string (list string) :=
  list_to_map [
    ("stm32f0", ["rt"; "stm32f0x0"; "stm32f0x1"; "stm32f0x2"; "stm32f0x8"]);
    ("stm32f1", ["rt"; "stm32f100"; "stm32f101"; "stm32f102"; "stm32f103";
                 "stm32f107"]);
    ("stm32f2", ["rt"; "stm32f215"; "stm32f217"]);
    ("stm32f3", ["rt"; "stm32f303"; "stm32f373"; "stm32f3x8"]);
    ("stm32f4", ["rt"; "stm32f401"; "stm32f407"; "stm32f413"; "stm32f469"]);
    ("stm32f7", ["rt"; "stm32f7x3"; "stm32f7x9"]);
    ("stm32h7", ["rt"; "stm32h743"; "stm32h743v"; "stm32h747cm7"]);
    ("stm32l0", ["rt"; "stm32l0x1"; "stm32l0x2"; "stm32l0x3"]);
    ("stm32l1", ["rt"; "stm32l100"; "stm32l151"; "stm32l162"]);
    ("stm32l4", ["rt"; "stm32l4x1"; "stm32l4x5"]);
    ("stm32g0", ["rt"; "stm32g07x"; "stm32g030"; "stm32g031"; "stm32g041"; "stm32g081"]);
    ("stm32g4", ["rt"; "stm32g431"; "stm32g441"; "stm32g474"; "stm32g484"])
  ].

Definition CARGO_TOML_TPL : string := unlines [
  "[package]";
  "edition = " +:+ q "2018";
  "name = " +:+ q "{crate}";
  "version = " +:+ q "{version}";
  "authors = [" +:+ q "Adam Greig <adam@adamgreig.com>" +:+ ", " +:+ q "stm32-rs Contributors" +:+ "]";
  "description = " +:+ q "Device support crates for {family} devices";
  "repository = " +:+ q "https://github.com/stm32-rs/stm32-rs";
  "readme = " +:+ q "README.md";
  "keywords = [" +:+ q "stm32" +:+ ", " +:+ q "svd2rust" +:+ ", " +:+ q "no_std" +:+ ", " +:+ q "embedded" +:+ "]";
  "categories = [" +:+ q "embedded" +:+ ", " +:+ q "no-std" +:+ "]";
  "license = " +:+ q "MIT/Apache-2.0";
  EmptyString;
  "[dependencies]";
  "bare-metal = " +:+ q "0.2.4";
  "vcell = " +:+ q "0.1.0";
  "cortex-m = " +:+ q ">=0.5.8,<0.7";
  EmptyString;
  "[dependencies.cortex-m-rt]";
  "optional = true";
  "version = " +:+ q "0.6.10";
  EmptyString;
  "[package.metadata.docs.rs]";
  "features = {docs_features}";
  EmptyString;
  "[features]";
  "default = []";
  "rt = [" +:+ q "cortex-m-rt/device" +:+ "]";
  "{features}"
].

Definition SRC_LIB_RS_TPL : string := unlines [
  "//! Peripheral access API for {family} microcontrollers";
  "//! (generated using [svd2rust](https://github.com/rust-embedded/svd2rust)";
  "//! {svd2rust_version})";
  "//!";
  "//! You can find an overview of the API here:";
  "//! [svd2rust/#peripheral-api](https://docs.rs/svd2rust/{svd2rust_version}/svd2rust/#peripheral-api)";
  "//!";
  "//! For more details see the README here:";
  "//! [stm32-rs](https://github.com/stm32-rs/stm32-rs)";
  "//!";
  "//! This crate supports all {family} devices; for the complete list please";
  "//! see:";
  "//! [{crate}](https://github.com/stm32-rs/stm32-rs/tree/master/{crate})";
  "//!";
  "//! Due to doc build limitations, not all devices may be shown on docs.rs;";
  "//! a representative few have been selected instead. For a complete list of";
  "//! available registers and fields see: [stm32-rs Device Coverage](https://stm32.agg.io/rs)";
  EmptyString;
  "#![allow(non_camel_case_types)]";
  "#![no_std]";
  EmptyString;
  "mod generic;";
  "pub use self::generic::*;";
  EmptyString;
  "{mods}"
].

Definition README_TPL : string := unlines [
  "# {crate}";
  "This crate provides an autogenerated API for access to {family} peripherals.";
  "The API is generated using [svd2rust] with patched svd files containing";
  "extensive type-safe support. For more information please see the [main repo].";
  EmptyString;
  "Refer to the [documentation] for full details.";
  EmptyString;
  "[svd2rust]: https://github.com/japaric/svd2rust";
  "[main repo]: https://github.com/stm32-rs/stm32-rs";
  "[documentation]: https://docs.rs/{crate}/latest/{crate}/";
  EmptyString;
  "## Usage";
  "Each device supported by this crate is behind a feature gate so that you only";
  "compile the device(s) you want. To use, in your Cargo.toml:";
  EmptyString;
  "```toml";
  "[dependencies.{crate}]";
  "version = " +:+ q "{version}";
  "features = [" +:+ q "{device}" +:+ ", " +:+ q "rt" +:+ "]";
  "```";
  EmptyString;
  "The `rt` feature is optional and brings in support for `cortex-m-rt`.";
  EmptyString;
  "In your code:";
  EmptyString;
  "```rust";
  "use {crate}::{device};";
  EmptyString;
  "let mut peripherals = {device}::Peripherals::take().unwrap();";
  "let gpioa = &peripherals.GPIOA;";
  "gpioa.odr.modify(|_, w| w.odr0().set_bit());";
  "```";
  EmptyString;
  "For full details on the autogenerated API, please see:";
  "https://docs.rs/svd2rust/{svd2rust_version}/svd2rust/#peripheral-api";
  EmptyString;
  "## Supported Devices";
  EmptyString;
  "| Module | Devices | Links |";
  "|:------:|:-------:|:-----:|";
  "{devices}"
].

Definition BUILD_TPL : string := unlines [
  "use std::env;";
  "use std::fs;";
  "use std::path::PathBuf;";
  "fn main() {{";
  "    if env::var_os(" +:+ q "CARGO_FEATURE_RT" +:+ ").is_some() {{";
  "        let out = &PathBuf::from(env::var_os(" +:+ q "OUT_DIR" +:+ ").unwrap());";
  "        println!(" +:+ q "cargo:rustc-link-search={{}}" +:+ ", out.display());";
  "        let device_file = {device_clauses};";
  "        fs::copy(device_file, out.join(" +:+ q "device.x" +:+ ")).unwrap();";
  "        println!(" +:+ q "cargo:rerun-if-changed={{}}" +:+ ", device_file);";
  "    }}";
  "    println!(" +:+ q "cargo:rerun-if-changed=build.rs" +:+ ");";
  "}}"
].

(** *** The reference table

    What [yaml.safe_load] returns for [stm32_part_table.yaml]: for each
    family the devices in the order of the file, each with its record.
    The records are taken as complete (the four keys present, [members] a
    list of strings). *)
Record device_entry : Type := DeviceEntry {
  rm : string;
  rm_url : string;
  url : string;
  members : list string
}.

Abbreviation table := (gmap string (list (string * device_entry))).

(** *** The helpers *)

Definition device_row (device : string) (dt : device_entry) : result string :=
  let* links := format "[{}]({}), [st.com]({})" [rm dt; rm_url dt; url dt] [] in
  let members := join ", " (members dt) in
  format "| {} | {} | {} |" [device; members; links] [].

Definition make_device_rows (tbl : table) (family : string) : result string :=
  match tbl !! family with
  | None => raise (KeyError family)
  | Some items =>
      let* rows := mapM (λ it, device_row it.1 it.2) items in
      ret (join nl (sorted rows))
  end.

Definition make_features (devices : list string) : result string :=
  let* lines := mapM (λ d, format "{} = []" [d] []) (sorted devices) in
  ret (join nl lines).

Definition MOD_TPL : string :=
  "#[cfg(feature = " +:+ q "{0}" +:+ ")]" +:+ nl +:+ "pub mod {0};" +:+ nl.

Definition make_mods (devices : list string) : result string :=
  let* mods := mapM (λ d, format MOD_TPL [d] []) (sorted devices) in
  ret (join nl mods).

Definition CLAUSE_TPL : string := join nl [
  "        if env::var_os(" +:+ q "CARGO_FEATURE_{}" +:+ ").is_some() {{";
  "            " +:+ q "src/{}/device.x";
  "        }}"
].

Definition NO_DEVICE_CLAUSE : string :=
  " else { panic!(" +:+ q "No device features selected" +:+ "); }".

Definition make_device_clauses (devices : list string) : result string :=
  let* clauses :=
    mapM (λ d, format (strip CLAUSE_TPL) [upper d; d] []) (sorted devices) in
  ret (join " else " clauses +:+ NO_DEVICE_CLAUSE).

(** *** [os.path.splitext]

    [splitext_root p] is [os.path.splitext(p)[0]]: the name is cut at its
    last dot when that dot lies in the last component and a character
    other than a dot stands before it there. *)
Fixpoint rfind_go (c : ascii) (i : nat) (last : option nat) (s : string) : option nat :=
  match s with
  | EmptyString => last
  | String x s' =>
      rfind_go c (S i) (if Ascii.eqb x c then Some i else last) s'
  end.

Definition rfind (c : ascii) (s : string) : option nat := rfind_go c 0 None s.

Fixpoint has_non_dot (s : string) : bool :=
  match s with
  | EmptyString => false
  | String c s' => negb (Ascii.eqb c ".") || has_non_dot s'
  end.

Definition splitext_root (p : string) : string :=
  let filenameIndex :=
    match rfind "/" p with Some sepIndex => S sepIndex | None => 0 end in
  match rfind "." p with
  | Some dotIndex =>
      if (filenameIndex <=? dotIndex)%nat
         && has_non_dot (take_chars (dotIndex - filenameIndex)
                                    (drop_chars filenameIndex p))
      then take_chars dotIndex p
      else p
  | None => p
  end.

(** *** The collection pass of [main] *)

Definition family_of (path : string) : string :=
  take_chars 7 (basename path).

Definition device_of (path : string) : string :=
  lower (splitext_root (basename path)).

(** [if family not in devices: devices[family] = []] followed by
    [devices[family].append(device)]: a new key goes to the end. *)
Fixpoint dict_append (family device : string)
    (devices : list (string * list string)) : list (string * list string) :=
  match devices with
  | [] => [(family, [device])]
  | (k, ds) :: devices' =>
      if decide (k = family) then (k, (ds ++ [device])%list) :: devices'
      else (k, ds) :: dict_append family device devices'
  end.

Definition collect_from (devices : list (string * list string))
    (paths : list string) : list (string * list string) :=
  foldl (λ devices path, dict_append (family_of path) (device_of path) devices)
        devices paths.

Definition collect : list string → list (string * list string) :=
  collect_from [].

(** [devices[family]] *)
Fixpoint dict_get (family : string)
    (devices : list (string * list string)) : option (list string) :=
  match devices with
  | [] => None
  | (k, ds) :: devices' =>
      if decide (k = family) then Some ds else dict_get family devices'
  end.

Definition dirs_line (devices : list (string * list string)) : string :=
  join ", " ((λ x, lower x.1 +:+ "/") <$> devices).

(** *** The body of the loop over the families *)

Record artifacts : Type := Artifacts {
  cargo_toml : string;
  readme : string;
  lib_rs : string;
  build_rs : string
}.

Definition render_cargo_toml (family features : string) : result string :=
  let crate := lower family in
  match CRATE_DOC_FEATURES !! crate with
  | None => raise (KeyError crate)
  | Some docs =>
      format CARGO_TOML_TPL []
        [("family", upper family); ("crate", crate); ("version", VERSION);
         ("features", features); ("docs_features", str_of_list docs)]
  end.

Definition render_readme (tbl : table) (family : string)
    (devices : list string) : result string :=
  match devices !! 0%nat with
  | None => raise IndexError
  | Some device =>
      let* rows := make_device_rows tbl family in
      format README_TPL []
        [("family", upper family); ("crate", lower family); ("device", device);
         ("version", VERSION); ("svd2rust_version", SVD2RUST_VERSION);
         ("devices", rows)]
  end.

Definition render_lib_rs (family mods : string) : result string :=
  format SRC_LIB_RS_TPL []
    [("family", upper family); ("mods", mods); ("crate", lower family);
     ("svd2rust_version", SVD2RUST_VERSION)].

Definition render_build_rs (clauses : string) : result string :=
  format BUILD_TPL [] [("device_clauses", clauses)].

(** One pass of the loop body up to the rendering, in the order of the
    source: [collected] is the list found under [family]; it is sorted,
    the features, the clauses and the modules are made from it, and the
    four templates are filled. *)
Definition render_family (tbl : table) (family : string)
    (collected : list string) : result artifacts :=
  let devices := sorted collected in
  let* features := make_features devices in
  let* clauses := make_device_clauses devices in
  let* mods := make_mods devices in
  let* c := render_cargo_toml family features in
  let* r := render_readme tbl family devices in
  let* l := render_lib_rs family mods in
  let* b := render_build_rs clauses in
  ret (Artifacts c r l b).

(** *** Effects *)

Inductive event : Type :=
| EPrint (line : string)
| EInput (prompt : string)
| EMakedirs (path : string)
| EWrite (path content : string).

Definition write_family (crate : string) (a : artifacts) : list event :=
  [ EMakedirs (path_join crate "src");
    EWrite (path_join crate "Cargo.toml") (cargo_toml a);
    EWrite (path_join crate "README.md") (readme a);
    EWrite (path_join (path_join crate "src") "lib.rs") (lib_rs a);
    EWrite (path_join crate "build.rs") (build_rs a) ].

(** The loop [for family in devices]: the events it performs and how it
    ends.  The loop body renders the four texts of a family and then
    creates the directory and writes the files.  The file system is taken
    to let it: [os.makedirs], [open] and [write] return, so the only
    exceptions of the loop are those of the rendering.  On a disk that
    refuses a directory or a file the script ends there with the
    [OSError]; such runs are not among those of [process], and what is
    proved of [process] for a loop that fails or completes is proved for
    the runs in which the file system obeys. *)
Fixpoint process (tbl : table)
    (devices : list (string * list string)) : list event * result unit :=
  match devices with
  | [] => ([], ret tt)
  | (family, collected) :: devices' =>
      match render_family tbl family collected with
      | inl e => ([], raise e)
      | inr a =>
          let '(evs, r) := process tbl devices' in
          ((write_family (lower family) a ++ evs)%list, r)
      end
  end.

(** What the operator does at the prompt of [input]. *)
Inductive response : Type :=
| Line (text : string)
| Interrupt
| EndOfInput.

(** What a run meets outside the program: the command line, the names in
    the directory it is given ([None] when there is no such directory),
    what [read_device_table] returns or raises, and the operator. *)
Record world : Type := World {
  argv : list string;
  listing : option (list string);
  table_file : result table;
  operator : response
}.

(** [fnmatch] of a name against [*.yaml]; a name that starts with a dot is
    hidden from the pattern. *)
Definition matches_yaml (name : string) : bool :=
  match name with
  | String "." _ => false
  | _ => ends_with ".yaml" name
  end.

(** [glob.glob(os.path.join(dir, "*.yaml"))], in the order of the listing;
    [dir] is taken to hold no wildcard of its own. *)
Definition glob_yaml (dir : string) (names : option (list string)) : list string :=
  match names with
  | None => []
  | Some names => path_join dir <$> filter (λ n, matches_yaml n = true) names
  end.

Definition GOING_TO : string :=
  "Going to create/update the following directories:".
Definition ENTER_TO_CONTINUE : string :=
  "Enter to continue, ctrl-C to cancel".

(** The two [print]s and the [input] that precede the loop. *)
Definition shown (devices : list (string * list string)) : list event :=
  [EPrint GOING_TO; EPrint (dirs_line devices); EInput ENTER_TO_CONTINUE].

Definition main (dir : string) (w : world) : list event * result unit :=
  let devices := collect (glob_yaml dir (listing w)) in
  match table_file w with
  | inl e => ([], raise e)
  | inr tbl =>
      match operator w with
      | Line _ =>
          let '(evs, r) := process tbl devices in
          ((shown devices ++ evs)%list, r)
      | Interrupt => (shown devices, raise KeyboardInterrupt)
      | EndOfInput => (shown devices, raise EOFError)
      end
  end.

(** How the script ends: by itself, [Exit status], which is [sys.exit(1)]
    after the line of usage or the end of [main] with status zero; or by
    an exception that nothing catches, [Uncaught e], after which the
    interpreter prints the traceback and ends the process with a status
    of its own that is not zero.  [Exit 1] thus stands for the call of
    [sys.exit(1)] and not for every process that ends with status 1. *)
Inductive outcome : Type :=
| Exit (status : nat)
| Uncaught (e : exn).

Definition run (w : world) : list event * outcome :=
  match argv w with
  | [prog; dir] =>
      let '(evs, r) := main dir w in
      (evs, match r with inl e => Uncaught e | inr _ => Exit 0 end)
  | prog :: _ =>
      ([EPrint ("Usage: " +:+ prog +:+ " <yaml directory>")], Exit 1)
  | [] => ([], Uncaught IndexError)
  end.

(** An uncaught exception ends the interpreter with a status other than
    zero. *)
Definition exits_zero (o : outcome) : bool :=
  match o with
  | Exit 0 => true
  | _ => false
  end.

(** The files on disk after a sequence of events, over what was there. *)
Definition apply_event (fs : gmap string string) (e : event) : gmap string string :=
  match e with
  | EWrite path content => <[path := content]> fs
  | _ => fs
  end.

Definition files_after (fs : gmap string string) (evs : list event) : gmap string string :=
  foldl apply_event fs evs.

(** The path an event creates or writes, when it does. *)
Definition output_path (e : event) : option string :=
  match e with
  | EMakedirs p => Some p
  | EWrite p _ => Some p
  | _ => None
  end.

Definition writes (evs : list event) : list (string * string) :=
  omap (λ e, match e with EWrite p c => Some (p, c) | _ => None end) evs.

(** *** The texts the specification speaks of

    Written out from the words of the specification, to be compared with
    what the helpers above compute. *)

(** The feature flag of a device in the manifest. *)
Definition feature_line (d : string) : string := d +:+ " = []".

(** The links of a row: the reference manual under its title, then the
    vendor page. *)
Definition links_text (dt : device_entry) : string :=
  "[" +:+ rm dt +:+ "](" +:+ rm_url dt +:+ "), [st.com](" +:+ url dt +:+ ")".

(** One row of the coverage table. *)
Definition row_text (device : string) (dt : device_entry) : string :=
  "| " +:+ device +:+ " | " +:+ join ", " (members dt) +:+ " | "
  +:+ links_text dt +:+ " |".

(** One branch of the chain of the build script: the test of the feature
    flag of [d] and the path of its linker description. *)
Definition device_branch (d : string) : string :=
  "if env::var_os(" +:+ dq +:+ "CARGO_FEATURE_" +:+ upper d +:+ dq
  +:+ ").is_some() {" +:+ nl
  +:+ "            " +:+ dq +:+ "src/" +:+ d +:+ "/device.x" +:+ dq +:+ nl
  +:+ "        }".

(** One module declaration of the library entry point. *)
Definition mod_decl (d : string) : string :=
  "#[cfg(feature = " +:+ dq +:+ d +:+ dq +:+ ")]" +:+ nl
  +:+ "pub mod " +:+ d +:+ ";" +:+ nl.

(** The lines of feature flags, the chain of the build script, the module
    declarations and the rows of the coverage table, for a list of devices
    in the order it has and for the entries of the table. *)
Definition features_text (devices : list string) : string :=
  join nl (feature_line <$> devices).

(** The branch that ends the chain: it is taken when no test before it
    holds, and panics. *)
Definition fallback_branch : string :=
  " else { panic!(" +:+ dq +:+ "No device features selected" +:+ dq +:+ "); }".

Definition chain_text (devices : list string) : string :=
  join " else " (device_branch <$> devices) +:+ fallback_branch.

Definition mods_text (devices : list string) : string :=
  join nl (mod_decl <$> devices).

Definition table_rows (items : list (string * device_entry)) : list string :=
  sorted ((λ it, row_text it.1 it.2) <$> items).

(** Parts of the templates: the features section that ends the manifest,
    the coverage table that ends the readme, the three lines of the usage
    example that name a device, and the line of the build script that
    holds the chain. *)
Definition FEATURES_SECTION_TPL : string := unlines [
  "[features]";
  "default = []";
  "rt = [" +:+ q "cortex-m-rt/device" +:+ "]";
  "{features}"
].

Definition COVERAGE_TABLE_TPL : string := unlines [
  "## Supported Devices";
  EmptyString;
  "| Module | Devices | Links |";
  "|:------:|:-------:|:-----:|";
  "{devices}"
].

Definition USAGE_FEATURES_TPL : string :=
  nl +:+ "features = [" +:+ q "{device}" +:+ ", " +:+ q "rt" +:+ "]" +:+ nl.

Definition USAGE_USE_TPL : string :=
  nl +:+ "use {crate}::{device};" +:+ nl.

Definition USAGE_TAKE_TPL : string :=
  nl +:+ "let mut peripherals = {device}::Peripherals::take().unwrap();" +:+ nl.

Definition DEVICE_FILE_TPL : string :=
  nl +:+ "        let device_file = {device_clauses};" +:+ nl.

(** The same parts with their fields filled. *)
Definition features_section (features : string) : string :=
  "[features]" +:+ nl +:+ "default = []" +:+ nl
  +:+ "rt = [" +:+ dq +:+ "cortex-m-rt/device" +:+ dq +:+ "]" +:+ nl
  +:+ features +:+ nl.

Definition coverage_table (rows : string) : string :=
  "## Supported Devices" +:+ nl +:+ nl
  +:+ "| Module | Devices | Links |" +:+ nl
  +:+ "|:------:|:-------:|:-----:|" +:+ nl
  +:+ rows +:+ nl.

Definition usage_features_line (device : string) : string :=
  nl +:+ "features = [" +:+ dq +:+ device +:+ dq +:+ ", "
  +:+ dq +:+ "rt" +:+ dq +:+ "]" +:+ nl.

Definition usage_use_line (crate device : string) : string :=
  nl +:+ "use " +:+ crate +:+ "::" +:+ device +:+ ";" +:+ nl.

Definition usage_take_line (device : string) : string :=
  nl +:+ "let mut peripherals = " +:+ device
  +:+ "::Peripherals::take().unwrap();" +:+ nl.

Definition device_file_line (clauses : string) : string :=
  nl +:+ "        let device_file = " +:+ clauses +:+ ";" +:+ nl.

(** The device identifiers the input filenames give for a family: the
    lowercased stems of the names whose first seven characters are the
    family, in the order of the listing. *)
Definition ids_of (family : string) (paths : list string) : list string :=
  device_of <$> filter (λ p, family_of p = family) paths.

(** The events of one family whose texts were rendered. *)
Definition written_for (tbl : table) (fd : string * list string) : list event :=
  match render_family tbl fd.1 fd.2 with
  | inr a => write_family (lower fd.1) a
  | inl _ => []
  end.

Definition renders (tbl : table) (fd : string * list string) : Prop :=
  ∃ a, render_family tbl fd.1 fd.2 = inr a.

(** The four paths of a crate, and with them the directory the loop
    creates. *)
Definition crate_paths (crate : string) : list string :=
  [ path_join crate "Cargo.toml"; path_join crate "README.md";
    path_join (path_join crate "src") "lib.rs"; path_join crate "build.rs" ].

Definition crate_outputs (crate : string) : list string :=
  path_join crate "src" :: crate_paths crate.

(** *** Sample inputs *)

Definition entry_f103 : device_entry :=
  DeviceEntry "RM0008" "https://www.st.com/resource/en/reference_manual/cd00171190.pdf"
    "https://www.st.com/en/microcontrollers-microprocessors/stm32f103.html"
    ["STM32F103C8"; "STM32F103RB"].

Definition entry_f107 : device_entry :=
  DeviceEntry "RM0008" "https://www.st.com/resource/en/reference_manual/cd00171190.pdf"
    "https://www.st.com/en/microcontrollers-microprocessors/stm32f105-107.html"
    ["STM32F107RC"; "STM32F107VC"].

Definition entry_zz01 : device_entry :=
  DeviceEntry "RM9999" "https://example.org/rm9999.pdf"
    "https://example.org/stm32zz01.html" ["STM32ZZ01A"].

(** A table with the two devices of [stm32f1] and a family the fixed
    documentation table does not know. *)
Definition sample_table : table :=
  {[ "stm32f1" := [("stm32f103", entry_f103); ("stm32f107", entry_f107)];
     "stm32zz" := [("stm32zz01", entry_zz01)] ]}.

(** A table that knows one device of [stm32f1] only. *)
Definition short_table : table :=
  {[ "stm32f1" := [("stm32f103", entry_f103)] ]}.

(** A table that has the family under both spellings of its prefix. *)
Definition two_case_table : table :=
  {[ "stm32f1" := [("stm32f103", entry_f103)];
     "STM32F1" := [("stm32f107", entry_f107)] ]}.

Definition PROG : string := "scripts/makecrates.py".

(** Two families, the second unknown to [CRATE_DOC_FEATURES]. *)
Definition world_unknown_family : world :=
  World [PROG; "devices"] (Some ["stm32f103.yaml"; "stm32zz01.yaml"])
        (inr sample_table) (Line EmptyString).

(** One file of [stm32f1], two devices in the table. *)
Definition world_one_file : world :=
  World [PROG; "devices"] (Some ["stm32f103.yaml"])
        (inr sample_table) (Line EmptyString).

(** Two files of [stm32f1], one device in the table. *)
Definition world_short_table : world :=
  World [PROG; "devices"] (Some ["stm32f103.yaml"; "stm32f107.yaml"])
        (inr short_table) (Line EmptyString).

(** Two names that differ in case only. *)
Definition world_same_stem : world :=
  World [PROG; "devices"] (Some ["STM32F1a.yaml"; "STM32F1A.yaml"])
        (inr two_case_table) (Line EmptyString).

(** Two names whose prefixes differ in case only. *)
Definition world_two_cases : world :=
  World [PROG; "devices"] (Some ["stm32f103.yaml"; "STM32F107.yaml"])
        (inr two_case_table) (Line EmptyString).

(** The operator cancels. *)
Definition world_cancelled : world :=
  World [PROG; "devices"] (Some ["stm32f103.yaml"; "stm32f107.yaml"])
        (inr sample_table) Interrupt.



(** *** Names, and further parts of the texts *)

(** [sep in s]: the name holds a separator. *)
Fixpoint has_sep (s : string) : bool :=
  match s with
  | EmptyString => false
  | String c s' => Ascii.eqb c "/" || has_sep s'
  end.

(** What stands before [.yaml] in the name of a description file the
    pattern takes: it is not empty and does not start with a dot. *)
Definition visible_stem (stem : string) : bool :=
  match stem with
  | EmptyString => false
  | String c _ => negb (Ascii.eqb c ".")
  end.

(** The elements of a list in the order in which each appears first. *)
Definition first_seen (l : list string) : list string :=
  reverse (remove_dups (reverse l)).

(** The head of the manifest, its description and its section for the
    documentation build; the title and the end of the library entry
    point. *)
Definition PACKAGE_TPL : string := unlines [
  "[package]";
  "edition = " +:+ q "2018";
  "name = " +:+ q "{crate}";
  "version = " +:+ q "{version}"
].

Definition DESCRIPTION_TPL : string :=
  nl +:+ "description = " +:+ q "Device support crates for {family} devices"
  +:+ nl.

Definition DOCS_RS_TPL : string :=
  nl +:+ "[package.metadata.docs.rs]" +:+ nl
  +:+ "features = {docs_features}" +:+ nl.

Definition LIB_TITLE_TPL : string :=
  "//! Peripheral access API for {family} microcontrollers" +:+ nl.

Definition LIB_MODS_TPL : string := unlines [
  "mod generic;";
  "pub use self::generic::*;";
  EmptyString;
  "{mods}"
].

Definition package_section (crate version : string) : string :=
  "[package]" +:+ nl +:+ "edition = " +:+ dq +:+ "2018" +:+ dq +:+ nl
  +:+ "name = " +:+ dq +:+ crate +:+ dq +:+ nl
  +:+ "version = " +:+ dq +:+ version +:+ dq +:+ nl.

Definition description_line (family : string) : string :=
  nl +:+ "description = " +:+ dq +:+ "Device support crates for "
  +:+ family +:+ " devices" +:+ dq +:+ nl.

Definition docs_rs_section (docs_features : string) : string :=
  nl +:+ "[package.metadata.docs.rs]" +:+ nl
  +:+ "features = " +:+ docs_features +:+ nl.

Definition lib_title (family : string) : string :=
  "//! Peripheral access API for " +:+ family +:+ " microcontrollers" +:+ nl.

Definition lib_mods_section (mods : string) : string :=
  "mod generic;" +:+ nl +:+ "pub use self::generic::*;" +:+ nl +:+ nl
  +:+ mods +:+ nl.

(** A template begins with the pieces of another. *)
Definition template_starts (tpl sub : string) : bool :=
  match parse tpl, parse sub with
  | Some ps, Some u => starts_with_pieces u ps
  | _, _ => false
  end.

(** [text.startswith(s)] as a proposition. *)
Definition has_prefix (text s : string) : Prop :=
  ∃ b, text = s +:+ b.

(** The number of places of [text] at which [s] begins. *)
Fixpoint occurrences (s text : string) : nat :=
  ((if String.prefix s text then 1 else 0)
   + match text with
     | EmptyString => 0
     | String _ text' => occurrences s text'
     end)%nat.

(** Two reference tables say the same of a family: both lack it, or both
    have it with the same entries, in whatever order each lists them. *)
Definition same_entries (family : string) (tbl1 tbl2 : table) : Prop :=
  match tbl1 !! family, tbl2 !! family with
  | Some items1, Some items2 => items1 ≡ₚ items2
  | None, None => True
  | _, _ => False
  end.

End Makecrates.

(** ** Facts about the primitives *)

Module PyFacts.
Import Py.

Lemma sorted_Permutation (l : list string) : sorted l ≡ₚ l.
Proof. apply merge_sort_Permutation. Qed.

Lemma sorted_StronglySorted (l : list string) :
  StronglySorted String.le (sorted l).
Proof. apply (StronglySorted_merge_sort String.le). Qed.

(** The ordered rearrangement of a list of strings is unique, so [sorted]
    is the function Python's [sorted] computes. *)
Lemma sorted_unique (l l' : list string) :
  StronglySorted String.le l' → l' ≡ₚ l → sorted l = l'.
Proof.
  intros Hs Hp. apply (StronglySorted_unique String.le).
  - apply sorted_StronglySorted.
  - exact Hs.
  - rewrite sorted_Permutation. symmetry. exact Hp.
Qed.

Lemma sorted_perm_eq (l l' : list string) : l ≡ₚ l' → sorted l = sorted l'.
Proof.
  intros Hp. apply sorted_unique.
  - apply sorted_StronglySorted.
  - rewrite sorted_Permutation. symmetry. exact Hp.
Qed.

(** Two lists have one sorted form exactly when they hold the same
    elements, each as often. *)
Lemma sorted_eq_iff_perm (l l' : list string) : sorted l = sorted l' ↔ l ≡ₚ l'.
Proof.
  split.
  - intros H. rewrite <- (sorted_Permutation l), H. apply sorted_Permutation.
  - apply sorted_perm_eq.
Qed.

Lemma sorted_idemp (l : list string) : sorted (sorted l) = sorted l.
Proof. apply sorted_perm_eq, sorted_Permutation. Qed.

Lemma sorted_length (l : list string) : length (sorted l) = length l.
Proof. apply Permutation_length, sorted_Permutation. Qed.

Lemma sorted_elem_of (l : list string) (x : string) : x ∈ sorted l ↔ x ∈ l.
Proof. by rewrite sorted_Permutation. Qed.

Lemma sorted_NoDup (l : list string) : NoDup l → NoDup (sorted l).
Proof. intros H. by rewrite sorted_Permutation. Qed.

Lemma sorted_nil_inv (l : list string) : sorted l = [] → l = [].
Proof.
  intros H. apply Permutation_nil_r. rewrite <- H.
  symmetry. apply sorted_Permutation.
Qed.

(** The first element of [sorted l] is a least element of [l]. *)
Lemma sorted_head_least (l : list string) (d : string) :
  sorted l !! 0%nat = Some d →
  d ∈ l ∧ ∀ d', d' ∈ l → String.le d d'.
Proof.
  intros Hd. pose proof (sorted_StronglySorted l) as Hs.
  destruct (sorted l) as [|x rest] eqn:E; [done|].
  simpl in Hd. injection Hd as ->.
  split.
  - apply sorted_elem_of. rewrite E. left.
  - intros d' Hd'. apply sorted_elem_of in Hd'. rewrite E in Hd'.
    apply StronglySorted_inv in Hs as [_ Hall].
    apply elem_of_cons in Hd' as [->|Hin].
    + reflexivity.
    + rewrite Forall_forall in Hall. exact (Hall _ Hin).
Qed.

Lemma sorted_head_some (l : list string) :
  l ≠ [] → ∃ d, sorted l !! 0%nat = Some d.
Proof.
  intros Hne. destruct (sorted l) as [|x rest] eqn:E.
  - apply sorted_nil_inv in E. done.
  - by exists x.
Qed.

Lemma append_cons (x : ascii) (a b : string) :
  String x a +:+ b = String x (a +:+ b).
Proof. reflexivity. Qed.

Lemma append_nil_l (a : string) : EmptyString +:+ a = a.
Proof. reflexivity. Qed.

Lemma append_assoc (a b c : string) : (a +:+ b) +:+ c = a +:+ (b +:+ c).
Proof.
  induction a as [|x a IH]; [done|].
  by rewrite !append_cons, IH.
Qed.

(** *** Rendering a template part by part *)

Lemma render_auto_irrel (auto auto' : nat) (ps : list piece)
    (kwargs : list (string * string)) :
  render auto ps [] kwargs = render auto' ps [] kwargs.
Proof.
  revert auto auto'.
  induction ps as [|[c|name] ps IH]; intros auto auto'; cbn [render].
  - reflexivity.
  - by rewrite (IH auto auto').
  - assert (field_value auto name [] kwargs = field_value auto' name [] kwargs)
      as ->.
    { unfold field_value. destruct name; [by rewrite !lookup_nil|done]. }
    destruct (field_value auto' name [] kwargs) as [e|v]; cbn [bind]; [done|].
    erewrite IH. reflexivity.
Qed.

Lemma render_app (auto : nat) (ps1 ps2 : list piece)
    (kwargs : list (string * string)) :
  render auto (ps1 ++ ps2) [] kwargs =
  bind (render auto ps1 [] kwargs) (λ a,
  bind (render auto ps2 [] kwargs) (λ b, ret (a +:+ b))).
Proof.
  revert auto.
  induction ps1 as [|[c|name] ps1 IH]; intros auto; cbn [app render].
  - cbn [bind ret]. by destruct (render auto ps2 [] kwargs).
  - rewrite IH.
    destruct (render auto ps1 [] kwargs) as [e|a]; cbn [bind]; [done|].
    by destruct (render auto ps2 [] kwargs).
  - destruct (field_value auto name [] kwargs) as [e|v]; cbn [bind]; [done|].
    rewrite IH.
    destruct (render _ ps1 [] kwargs) as [e|a]; cbn [bind]; [done|].
    rewrite (render_auto_irrel _ auto ps2).
    destruct (render auto ps2 [] kwargs) as [e|b]; cbn [bind ret]; [done|].
    by rewrite append_assoc.
Qed.

Lemma starts_with_pieces_spec (u ps : list piece) :
  starts_with_pieces u ps = true → ∃ r, ps = (u ++ r)%list.
Proof.
  revert ps. induction u as [|x u IH]; intros ps.
  - by exists ps.
  - destruct ps as [|y ps]; [done|]. cbn [starts_with_pieces].
    intros [Hxy Hu]%andb_true_iff.
    apply bool_decide_eq_true in Hxy as ->.
    destruct (IH ps Hu) as [r ->]. by exists r.
Qed.

Lemma has_pieces_spec (u ps : list piece) :
  has_pieces u ps = true → ∃ l r, ps = (l ++ u ++ r)%list.
Proof.
  induction ps as [|y ps IH]; cbn [has_pieces].
  - intros [H|H]%orb_true_iff; [|done].
    destruct (starts_with_pieces_spec u [] H) as [r Hr]. by exists [], r.
  - intros [H|H]%orb_true_iff.
    + destruct (starts_with_pieces_spec u (y :: ps) H) as [r Hr].
      by exists [], r.
    + destruct (IH H) as (l & r & ->). by exists (y :: l), r.
Qed.

Lemma ends_with_pieces_spec (u ps : list piece) :
  ends_with_pieces u ps = true → ∃ l, ps = (l ++ u)%list.
Proof.
  induction ps as [|y ps IH]; cbn [ends_with_pieces].
  - intros [H|H]%orb_true_iff; [|done].
    apply bool_decide_eq_true in H as <-. by exists [].
  - intros [H|H]%orb_true_iff.
    + apply bool_decide_eq_true in H as <-. by exists [].
    + destruct (IH H) as (l & ->). by exists (y :: l).
Qed.

(** A template that holds [sub] renders to a text that holds what [sub]
    renders to, with the same keyword arguments. *)
Lemma format_contains (tpl sub : string) (kwargs : list (string * string))
    (text : string) :
  template_has tpl sub = true →
  format tpl [] kwargs = inr text →
  ∃ v, format sub [] kwargs = inr v ∧ contains text v.
Proof.
  unfold template_has, format.
  destruct (parse tpl) as [ps|]; [|done].
  destruct (parse sub) as [u|]; [|done].
  intros (l & r & ->)%has_pieces_spec.
  rewrite !render_app.
  destruct (render 0 l [] kwargs) as [e|a]; cbn [bind]; [done|].
  destruct (render 0 u [] kwargs) as [e|v]; cbn [bind]; [done|].
  destruct (render 0 r [] kwargs) as [e|b]; cbn [bind ret]; [done|].
  intros [= <-]. exists v. split; [done|]. by exists a, b.
Qed.

Lemma format_suffix (tpl sub : string) (kwargs : list (string * string))
    (text : string) :
  template_ends tpl sub = true →
  format tpl [] kwargs = inr text →
  ∃ v, format sub [] kwargs = inr v ∧ has_suffix text v.
Proof.
  unfold template_ends, format.
  destruct (parse tpl) as [ps|]; [|done].
  destruct (parse sub) as [u|]; [|done].
  intros (l & ->)%ends_with_pieces_spec.
  rewrite render_app.
  destruct (render 0 l [] kwargs) as [e|a]; cbn [bind]; [done|].
  destruct (render 0 u [] kwargs) as [e|v]; cbn [bind ret]; [done|].
  intros [= <-]. exists v. split; [done|]. by exists a.
Qed.

End PyFacts.

(** ** Facts about the helpers of the script *)

Module MakecratesFacts.
Import Py PyFacts Makecrates.
Local Open Scope result_scope.

Lemma mapM_total {A B} (f : A → result B) (g : A → B) (l : list A) :
  (∀ a, f a = inr (g a)) → mapM f l = inr (g <$> l).
Proof.
  intros Hf. induction l as [|a l IH]; [done|].
  simpl. rewrite Hf, IH. reflexivity.
Qed.

Lemma format_feature_line (d : string) :
  format "{} = []" [d] [] = inr (feature_line d).
Proof. reflexivity. Qed.

Lemma format_mod_decl (d : string) :
  format MOD_TPL [d] [] = inr (mod_decl d).
Proof. reflexivity. Qed.

Lemma format_device_branch (d : string) :
  format (strip CLAUSE_TPL) [upper d; d] [] = inr (device_branch d).
Proof. vm_compute. reflexivity. Qed.

Lemma device_row_text (device : string) (dt : device_entry) :
  device_row device dt = inr (row_text device dt).
Proof. reflexivity. Qed.

Lemma make_features_eq (devices : list string) :
  make_features devices = inr (join nl (feature_line <$> sorted devices)).
Proof.
  unfold make_features.
  by rewrite (mapM_total _ feature_line _ format_feature_line).
Qed.

Lemma make_mods_eq (devices : list string) :
  make_mods devices = inr (join nl (mod_decl <$> sorted devices)).
Proof.
  unfold make_mods.
  by rewrite (mapM_total _ mod_decl _ format_mod_decl).
Qed.

Lemma make_device_clauses_eq (devices : list string) :
  make_device_clauses devices = inr (chain_text (sorted devices)).
Proof.
  unfold make_device_clauses.
  by rewrite (mapM_total _ device_branch _ format_device_branch).
Qed.

Lemma make_device_rows_eq (tbl : table) (family : string)
    (items : list (string * device_entry)) :
  tbl !! family = Some items →
  make_device_rows tbl family =
  inr (join nl (sorted ((λ it, row_text it.1 it.2) <$> items))).
Proof.
  intros Hl. unfold make_device_rows. rewrite Hl.
  by rewrite (mapM_total _ (λ it, row_text it.1 it.2) _
                (λ it, device_row_text it.1 it.2)).
Qed.

Lemma make_device_rows_missing (tbl : table) (family : string) :
  tbl !! family = None →
  make_device_rows tbl family = inl (KeyError family).
Proof. intros Hl. unfold make_device_rows. by rewrite Hl. Qed.

(** *** The collection pass *)

Lemma dict_get_append (f family device : string)
    (devices : list (string * list string)) :
  dict_get f (dict_append family device devices) =
  if decide (family = f)
  then Some (default [] (dict_get f devices) ++ [device])%list
  else dict_get f devices.
Proof.
  induction devices as [|[k ds] devices IH]; simpl.
  - repeat case_decide; congruence.
  - repeat case_decide; simpl; repeat case_decide; subst; try congruence.
    all: rewrite IH; case_decide; congruence.
Qed.

Lemma dict_append_keys (family device : string)
    (devices : list (string * list string)) :
  (dict_append family device devices).*1 =
  if decide (family ∈ devices.*1) then devices.*1
  else (devices.*1 ++ [family])%list.
Proof.
  induction devices as [|[k ds] devices IH].
  - rewrite decide_False; [done|]. apply not_elem_of_nil.
  - cbn [dict_append]. destruct (decide (k = family)) as [->|Hne].
    + rewrite !fmap_cons. cbn [fst].
      rewrite decide_True; [done|left].
    + rewrite !fmap_cons, IH. cbn [fst].
      destruct (decide (family ∈ devices.*1)) as [Hin|Hnin].
      * rewrite decide_True; [done|by right].
      * rewrite decide_False; [done|].
        intros [->|?]%elem_of_cons; done.
Qed.

Lemma dict_append_NoDup (family device : string)
    (devices : list (string * list string)) :
  NoDup devices.*1 → NoDup (dict_append family device devices).*1.
Proof.
  intros Hnd. rewrite dict_append_keys. case_decide as Hin; [done|].
  apply NoDup_app. split_and!; [done| |apply NoDup_singleton].
  intros x Hx ->%list_elem_of_singleton. done.
Qed.

Lemma collect_from_NoDup (devices : list (string * list string))
    (paths : list string) :
  NoDup devices.*1 → NoDup (collect_from devices paths).*1.
Proof.
  revert devices. induction paths as [|p paths IH]; intros devices Hnd.
  - exact Hnd.
  - apply IH, dict_append_NoDup, Hnd.
Qed.

(** The keys of the collected dictionary are pairwise distinct. *)
Lemma collect_NoDup (paths : list string) : NoDup (collect paths).*1.
Proof. apply collect_from_NoDup. constructor. Qed.

Lemma ids_of_cons (f p : string) (paths : list string) :
  ids_of f (p :: paths) =
  if decide (family_of p = f) then device_of p :: ids_of f paths
  else ids_of f paths.
Proof.
  unfold ids_of. rewrite filter_cons. by case_decide.
Qed.

Lemma dict_get_collect_from (f : string)
    (devices : list (string * list string)) (paths : list string) :
  dict_get f (collect_from devices paths) =
  match ids_of f paths with
  | [] => dict_get f devices
  | ids => Some (default [] (dict_get f devices) ++ ids)%list
  end.
Proof.
  revert devices. induction paths as [|p paths IH]; intros devices.
  - reflexivity.
  - change (collect_from devices (p :: paths))
      with (collect_from (dict_append (family_of p) (device_of p) devices) paths).
    rewrite IH, dict_get_append, ids_of_cons.
    case_decide as Hf; simpl.
    + destruct (ids_of f paths) as [|i ids]; [done|].
      by rewrite <- app_assoc.
    + reflexivity.
Qed.

(** What [main] holds under a family after the collection: the identifiers
    of the family's files, in the order of the listing; a family is a key
    exactly when it has a file. *)
Lemma dict_get_collect (f : string) (paths : list string) :
  dict_get f (collect paths) =
  match ids_of f paths with
  | [] => None
  | ids => Some ids
  end.
Proof. unfold collect. by rewrite dict_get_collect_from. Qed.

Lemma dict_get_collect_Some (f : string) (paths devs : list string) :
  dict_get f (collect paths) = Some devs →
  devs = ids_of f paths ∧ devs ≠ [].
Proof.
  rewrite dict_get_collect. destruct (ids_of f paths); [done|].
  intros [= <-]. done.
Qed.

(** *** The loop over the families *)

Lemma render_cargo_toml_missing (family features : string) :
  CRATE_DOC_FEATURES !! lower family = None →
  render_cargo_toml family features = inl (KeyError (lower family)).
Proof. intros Hl. unfold render_cargo_toml. by rewrite Hl. Qed.

(** The loop body with the three helpers, which always succeed, replaced
    by what they return. *)
Lemma render_family_eq (tbl : table) (family : string)
    (collected : list string) :
  render_family tbl family collected =
  let devices := sorted collected in
  bind (render_cargo_toml family (features_text devices)) (λ c,
  bind (render_readme tbl family devices) (λ r,
  bind (render_lib_rs family (mods_text devices)) (λ l,
  bind (render_build_rs (chain_text devices)) (λ b,
  ret (Artifacts c r l b))))).
Proof.
  unfold render_family. cbn zeta.
  rewrite make_features_eq, make_device_clauses_eq, make_mods_eq.
  rewrite sorted_idemp. reflexivity.
Qed.

Lemma render_family_doc_missing (tbl : table) (family : string)
    (collected : list string) :
  CRATE_DOC_FEATURES !! lower family = None →
  render_family tbl family collected = inl (KeyError (lower family)).
Proof.
  intros Hl. rewrite render_family_eq. cbn zeta.
  by rewrite (render_cargo_toml_missing _ _ Hl).
Qed.

Lemma written_for_renders (tbl : table) (fd : string * list string)
    (a : artifacts) :
  render_family tbl fd.1 fd.2 = inr a →
  written_for tbl fd = write_family (lower fd.1) a.
Proof. intros H. unfold written_for. by rewrite H. Qed.

Lemma process_cons_ok (tbl : table) (family : string)
    (collected : list string) (a : artifacts)
    (devices : list (string * list string)) :
  render_family tbl family collected = inr a →
  process tbl ((family, collected) :: devices) =
  ((write_family (lower family) a ++ (process tbl devices).1)%list,
   (process tbl devices).2).
Proof.
  intros H. cbn [process]. rewrite H. by destruct (process tbl devices).
Qed.

Lemma process_cons_fail (tbl : table) (family : string)
    (collected : list string) (e : exn)
    (devices : list (string * list string)) :
  render_family tbl family collected = inl e →
  process tbl ((family, collected) :: devices) = ([], inl e).
Proof. intros H. cbn [process]. by rewrite H. Qed.

(** The loop stops at the first family that does not render: what was
    written before stays, nothing is written from there on. *)
Lemma process_stops (tbl : table)
    (pre post : list (string * list string))
    (family : string) (collected : list string) (e : exn) :
  Forall (renders tbl) pre →
  render_family tbl family collected = inl e →
  process tbl (pre ++ (family, collected) :: post) =
  (concat (written_for tbl <$> pre), inl e).
Proof.
  intros Hpre Hf. induction Hpre as [|[f c] pre [a Ha] Hpre IH].
  - by apply process_cons_fail.
  - cbn [app]. rewrite (process_cons_ok _ _ _ a) by exact Ha.
    rewrite IH. cbn [fst snd fmap list_fmap concat].
    by rewrite (written_for_renders tbl (f, c) a Ha).
Qed.

Lemma process_prefix (tbl : table) (pre rest : list (string * list string)) :
  Forall (renders tbl) pre →
  process tbl (pre ++ rest) =
  ((concat (written_for tbl <$> pre) ++ (process tbl rest).1)%list,
   (process tbl rest).2).
Proof.
  intros Hpre. induction Hpre as [|[f c] pre [a Ha] Hpre IH].
  - cbn [app fmap list_fmap concat]. by destruct (process tbl rest).
  - cbn [app]. rewrite (process_cons_ok _ _ _ a) by exact Ha.
    rewrite IH. cbn [fst snd fmap list_fmap concat].
    rewrite (written_for_renders tbl (f, c) a Ha).
    by rewrite <- app_assoc.
Qed.

Lemma process_ok_inv (tbl : table) (devices : list (string * list string))
    (u : unit) :
  (process tbl devices).2 = inr u → Forall (renders tbl) devices.
Proof.
  induction devices as [|[f c] l IH]; [constructor|].
  cbn [process]. destruct (render_family tbl f c) as [e|a] eqn:E; [done|].
  destruct (process tbl l) as [evs r]. cbn [snd] in *.
  intros Hr. constructor; [by exists a|by apply IH].
Qed.

(** Whatever the loop does was rendered for one of the collected
    families. *)
Lemma process_events (tbl : table) (devices : list (string * list string))
    (ev : event) :
  ev ∈ (process tbl devices).1 →
  ∃ fd a, fd ∈ devices ∧ render_family tbl fd.1 fd.2 = inr a
          ∧ ev ∈ write_family (lower fd.1) a.
Proof.
  induction devices as [|[f c] l IH]; cbn [process].
  - intros H. by apply elem_of_nil in H.
  - destruct (render_family tbl f c) as [e|a] eqn:E.
    + intros H. by apply elem_of_nil in H.
    + destruct (process tbl l) as [evs r]. cbn [fst] in *.
      intros [Hin|Hin]%elem_of_app.
      * exists (f, c), a. split_and!; [left|done|done].
      * destruct (IH Hin) as (fd & a' & Hfd & Hr & Hev).
        exists fd, a'. split_and!; [by right|done|done].
Qed.

(** *** The run *)

Lemma run_main (w : world) (prog dir : string) :
  argv w = [prog; dir] →
  run w = ((main dir w).1,
           match (main dir w).2 with inl e => Uncaught e | inr _ => Exit 0 end).
Proof. intros H. unfold run. rewrite H. by destruct (main dir w). Qed.

Lemma main_confirmed (w : world) (dir : string) (tbl : table) (text : string) :
  table_file w = inr tbl → operator w = Line text →
  main dir w =
  let devices := collect (glob_yaml dir (listing w)) in
  ((shown devices ++ (process tbl devices).1)%list, (process tbl devices).2).
Proof.
  intros Ht Ho. unfold main. rewrite Ht, Ho.
  by destruct (process tbl _).
Qed.

Lemma is_write_write_family (crate : string) (a : artifacts) :
  writes (write_family crate a) =
  [ (path_join crate "Cargo.toml", cargo_toml a);
    (path_join crate "README.md", readme a);
    (path_join (path_join crate "src") "lib.rs", lib_rs a);
    (path_join crate "build.rs", build_rs a) ].
Proof. reflexivity. Qed.


End MakecratesFacts.

(** ** Facts about names, paths and the order of the families *)

Module NameFacts.
Import Py PyFacts Makecrates MakecratesFacts.
Local Open Scope list_scope.

Lemma append_empty_r (a : string) : a +:+ EmptyString = a.
Proof.
  induction a as [|x a IH]; [done|].
  by rewrite append_cons, IH.
Qed.

Lemma basename_go_step (cur : string) (c : ascii) (p : string) :
  basename_go cur (String c p) =
  if Ascii.eqb c "/" then basename_go EmptyString p
  else basename_go (cur +:+ String c EmptyString) p.
Proof. destruct c as [[] [] [] [] [] [] [] []]; reflexivity. Qed.

Lemma starts_with_sep_step (c : ascii) (s : string) :
  starts_with_sep (String c s) = Ascii.eqb c "/".
Proof. destruct c as [[] [] [] [] [] [] [] []]; reflexivity. Qed.

Lemma matches_yaml_step (c : ascii) (s : string) :
  matches_yaml (String c s) =
  negb (Ascii.eqb c ".") && ends_with ".yaml" (String c s).
Proof. destruct c as [[] [] [] [] [] [] [] []]; reflexivity. Qed.

Lemma has_sep_app (a b : string) :
  has_sep (a +:+ b) = has_sep a || has_sep b.
Proof.
  induction a as [|c a IH]; [done|].
  rewrite append_cons. cbn [has_sep]. rewrite IH. by rewrite orb_assoc.
Qed.

Lemma basename_go_app (cur a b : string) :
  basename_go cur (a +:+ b) = basename_go (basename_go cur a) b.
Proof.
  revert cur. induction a as [|c a IH]; intros cur; [done|].
  rewrite append_cons, !basename_go_step.
  destruct (Ascii.eqb c "/"); apply IH.
Qed.

Lemma basename_go_no_sep (cur s : string) :
  has_sep s = false → basename_go cur s = cur +:+ s.
Proof.
  revert cur. induction s as [|c s IH]; intros cur; cbn [has_sep].
  - intros _. by rewrite append_empty_r.
  - intros [Hc Hs]%orb_false_iff.
    rewrite basename_go_step, Hc, (IH _ Hs).
    by rewrite append_assoc.
Qed.

Lemma basename_go_ends_sep (cur a : string) :
  ends_with_sep a = true → basename_go cur a = EmptyString.
Proof.
  revert cur. induction a as [|c a IH]; intros cur; [done|].
  rewrite basename_go_step. cbn [ends_with_sep].
  destruct a as [|c' a'].
  - intros ->. reflexivity.
  - intros H. destruct (Ascii.eqb c "/"); by apply IH.
Qed.

(** [os.path.basename] undoes [os.path.join] on a name without a
    separator. *)
Lemma basename_path_join (dir name : string) :
  has_sep name = false → basename (path_join dir name) = name.
Proof.
  intros Hn. unfold basename, path_join.
  assert (starts_with_sep name = false) as ->.
  { destruct name as [|c name]; [done|].
    rewrite starts_with_sep_step. cbn [has_sep] in Hn.
    by apply orb_false_iff in Hn as [-> _]. }
  destruct (String.eqb dir EmptyString) eqn:Hd; cbn [orb].
  - apply String.eqb_eq in Hd as ->. rewrite append_nil_l.
    by rewrite basename_go_no_sep.
  - destruct (ends_with_sep dir) eqn:He.
    + rewrite basename_go_app, (basename_go_ends_sep _ _ He).
      by rewrite basename_go_no_sep.
    + rewrite !basename_go_app. rewrite (basename_go_step _ "/"). cbn.
      by rewrite basename_go_no_sep.
Qed.

Lemma ends_with_app (a suffix : string) : ends_with suffix (a +:+ suffix) = true.
Proof.
  induction a as [|c a IH].
  - rewrite append_nil_l. destruct suffix; cbn [ends_with].
    + reflexivity.
    + by rewrite String.eqb_refl.
  - rewrite append_cons. cbn [ends_with]. rewrite IH. apply orb_true_r.
Qed.

Lemma ends_with_inv (suffix s : string) :
  ends_with suffix s = true → ∃ a, s = a +:+ suffix.
Proof.
  induction s as [|c s IH]; cbn [ends_with].
  - intros [H|H]%orb_true_iff; [|done].
    apply String.eqb_eq in H as <-. by exists EmptyString.
  - intros [H|H]%orb_true_iff.
    + apply String.eqb_eq in H as <-. by exists EmptyString.
    + destruct (IH H) as [a ->]. by exists (String c a).
Qed.

(** The names the pattern [*.yaml] takes. *)
Lemma matches_yaml_iff (name : string) :
  matches_yaml name = true ↔
  ∃ stem, visible_stem stem = true ∧ name = stem +:+ ".yaml".
Proof.
  split.
  - destruct name as [|c name]; [done|].
    rewrite matches_yaml_step. intros [Hc He]%andb_true_iff.
    destruct (ends_with_inv _ _ He) as [a Ha].
    exists a. split; [|done].
    destruct a as [|x a].
    + rewrite append_nil_l in Ha. injection Ha as -> _. done.
    + rewrite append_cons in Ha. injection Ha as -> _. exact Hc.
  - intros (stem & Hv & ->). destruct stem as [|c stem]; [done|].
    rewrite append_cons, matches_yaml_step. cbn [visible_stem] in Hv.
    rewrite Hv. cbn [andb]. rewrite <- append_cons. apply ends_with_app.
Qed.

Lemma elem_of_glob_yaml (dir : string) (names : list string) (p : string) :
  p ∈ glob_yaml dir (Some names) ↔
  ∃ stem, visible_stem stem = true ∧ stem +:+ ".yaml" ∈ names
          ∧ p = path_join dir (stem +:+ ".yaml").
Proof.
  unfold glob_yaml. rewrite list_elem_of_fmap. split.
  - intros (name & -> & [Hm Hin]%list_elem_of_filter).
    apply matches_yaml_iff in Hm as (stem & Hv & ->). by exists stem.
  - intros (stem & Hv & Hin & ->). exists (stem +:+ ".yaml").
    split; [done|]. apply list_elem_of_filter. split; [|done].
    apply matches_yaml_iff. by exists stem.
Qed.

Lemma collect_snoc (paths : list string) (p : string) :
  collect (paths ++ [p]) =
  dict_append (family_of p) (device_of p) (collect paths).
Proof. unfold collect, collect_from. by rewrite foldl_app. Qed.

Lemma first_seen_elem_of (l : list string) (x : string) :
  x ∈ first_seen l ↔ x ∈ l.
Proof.
  unfold first_seen.
  by rewrite elem_of_reverse, elem_of_remove_dups, elem_of_reverse.
Qed.

Lemma first_seen_snoc (l : list string) (x : string) :
  first_seen (l ++ [x]) =
  if decide (x ∈ l) then first_seen l else first_seen l ++ [x].
Proof.
  unfold first_seen. rewrite reverse_app. cbn [reverse rev_append app].
  change (rev_append l []) with (reverse l).
  cbn [remove_dups].
  destruct (decide_rel elem_of x (reverse l)) as [Hin|Hin].
  - rewrite decide_True; [done|]. by apply elem_of_reverse.
  - rewrite decide_False; [by rewrite reverse_cons|].
    intros H. apply Hin. by apply elem_of_reverse.
Qed.

Lemma has_sep_take (n : nat) (s : string) :
  has_sep s = false → has_sep (take_chars n s) = false.
Proof.
  revert s. induction n as [|n IH]; intros [|c s]; try done.
  cbn [has_sep take_chars]. intros [-> Hs]%orb_false_iff. by apply IH.
Qed.

Lemma lower_char_sep (c : ascii) :
  Ascii.eqb (lower_char c) "/" = Ascii.eqb c "/".
Proof. destruct c as [[] [] [] [] [] [] [] []]; vm_compute; reflexivity. Qed.

Lemma has_sep_lower (s : string) : has_sep (lower s) = has_sep s.
Proof.
  induction s as [|c s IH]; [done|].
  unfold lower in *. cbn [map_chars has_sep]. by rewrite lower_char_sep, IH.
Qed.

Lemma lower_not_nil (s : string) : s ≠ EmptyString → lower s ≠ EmptyString.
Proof. by destruct s. Qed.

Lemma ends_with_sep_no_sep (s : string) :
  has_sep s = false → ends_with_sep s = false.
Proof.
  induction s as [|c s IH]; [done|]. cbn [has_sep ends_with_sep].
  intros [Hc Hs]%orb_false_iff. destruct s; [done|by apply IH].
Qed.

Lemma dict_get_of_elem (f : string) (ds : list string)
    (devices : list (string * list string)) :
  NoDup devices.*1 → (f, ds) ∈ devices → dict_get f devices = Some ds.
Proof.
  induction devices as [|[k ds'] devices IH]; intros Hnd Hin.
  - by apply elem_of_nil in Hin.
  - rewrite fmap_cons in Hnd. apply NoDup_cons in Hnd as [Hk Hnd].
    cbn [dict_get]. apply elem_of_cons in Hin as [[= <- <-]|Hin].
    + by rewrite decide_True.
    + rewrite decide_False; [by apply IH|].
      intros ->. apply Hk. apply list_elem_of_fmap. by exists (f, ds).
Qed.

Lemma ends_with_sep_app (s t : string) :
  t ≠ EmptyString → ends_with_sep (s +:+ t) = ends_with_sep t.
Proof.
  intros Ht. induction s as [|c s IH]; [done|].
  rewrite append_cons. cbn [ends_with_sep].
  destruct (s +:+ t) as [|c' r] eqn:E.
  - destruct s; [|discriminate E]. by rewrite append_nil_l in E.
  - exact IH.
Qed.

Lemma append_not_nil (s t : string) : t ≠ EmptyString → s +:+ t ≠ EmptyString.
Proof.
  intros Ht. destruct s as [|c s]; [by rewrite append_nil_l|].
  by rewrite append_cons.
Qed.

(** The four paths of a crate whose name is not empty and holds no
    separator. *)
Lemma crate_paths_explicit (crate : string) :
  crate ≠ EmptyString → has_sep crate = false →
  crate_paths crate =
  [crate +:+ "/Cargo.toml"; crate +:+ "/README.md"; crate +:+ "/src/lib.rs";
   crate +:+ "/build.rs"].
Proof.
  intros Hne Hs. unfold crate_paths, path_join. cbn [starts_with_sep].
  assert (String.eqb crate EmptyString = false) as ->
    by by apply String.eqb_neq.
  rewrite (ends_with_sep_no_sep _ Hs). cbn [orb].
  assert (String.eqb (crate +:+ "/" +:+ "src") EmptyString = false) as ->.
  { apply String.eqb_neq, append_not_nil. discriminate. }
  rewrite ends_with_sep_app by discriminate. cbn.
  by rewrite !append_assoc.
Qed.

(** The directory and the four files of a crate whose name is not empty
    and holds no separator. *)
Lemma crate_outputs_explicit (crate : string) :
  crate ≠ EmptyString → has_sep crate = false →
  crate_outputs crate =
  [crate +:+ "/src"; crate +:+ "/Cargo.toml"; crate +:+ "/README.md";
   crate +:+ "/src/lib.rs"; crate +:+ "/build.rs"].
Proof.
  intros Hne Hs. unfold crate_outputs.
  rewrite (crate_paths_explicit crate Hne Hs). f_equal.
  unfold path_join. cbn [starts_with_sep].
  assert (String.eqb crate EmptyString = false) as ->
    by by apply String.eqb_neq.
  by rewrite (ends_with_sep_no_sep _ Hs).
Qed.

Lemma basename_go_has_sep (cur p : string) :
  has_sep cur = false → has_sep (basename_go cur p) = false.
Proof.
  revert cur. induction p as [|c p IH]; intros cur Hc; [done|].
  rewrite basename_go_step. destruct (Ascii.eqb c "/") eqn:E.
  - by apply IH.
  - apply IH. rewrite has_sep_app, Hc. cbn [has_sep orb]. by rewrite E.
Qed.

Lemma path_join_suffix (a b : string) : ∃ x, path_join a b = x +:+ b.
Proof.
  unfold path_join. destruct (starts_with_sep b).
  - exists EmptyString. by rewrite append_nil_l.
  - destruct (String.eqb a EmptyString || ends_with_sep a).
    + by exists a.
    + exists (a +:+ "/"). by rewrite append_assoc.
Qed.

(** The family of a path the pattern takes is a name of one to seven
    characters without a separator, whatever the directory and the names
    in it. *)
Lemma glob_family_is_name (dir : string) (names : option (list string))
    (p : string) :
  p ∈ glob_yaml dir names →
  family_of p ≠ EmptyString ∧ has_sep (family_of p) = false.
Proof.
  destruct names as [names|]; [|intros H; by apply elem_of_nil in H].
  intros (stem & _ & _ & ->)%elem_of_glob_yaml.
  unfold family_of, basename.
  destruct (path_join_suffix dir (stem +:+ ".yaml")) as [x ->].
  rewrite <- append_assoc, basename_go_app.
  rewrite (basename_go_no_sep _ ".yaml") by reflexivity.
  split.
  - destruct (basename_go EmptyString (x +:+ stem)) as [|c b]; [discriminate|].
    by rewrite append_cons.
  - apply has_sep_take. rewrite has_sep_app.
    by rewrite basename_go_has_sep.
Qed.

(** A key of the collected dictionary is the family of a path, and its
    list is not empty. *)
Lemma collected_family_of_path (paths : list string) (family : string)
    (collected : list string) :
  (family, collected) ∈ collect paths →
  ∃ p, p ∈ paths ∧ family_of p = family.
Proof.
  intros Hin.
  pose proof (dict_get_of_elem _ _ _ (collect_NoDup _) Hin) as Hget.
  destruct (dict_get_collect_Some _ _ _ Hget) as [-> Hne].
  unfold ids_of in Hne.
  destruct (filter (λ p, family_of p = family) paths) as [|p l] eqn:E; [done|].
  assert (p ∈ filter (λ p, family_of p = family) paths) as Hp
    by (rewrite E; left).
  apply list_elem_of_filter in Hp as [Hf Hp]. by exists p.
Qed.

Lemma collect_nonempty (paths : list string) (family : string)
    (collected : list string) :
  (family, collected) ∈ collect paths → collected ≠ [].
Proof.
  intros Hin.
  pose proof (dict_get_of_elem _ _ _ (collect_NoDup _) Hin) as Hget.
  by destruct (dict_get_collect_Some _ _ _ Hget) as [_ Hne].
Qed.

(** What is shown before the loop, written out. *)
Lemma shown_explicit (devices : list (string * list string)) :
  shown devices =
  [ EPrint "Going to create/update the following directories:";
    EPrint (join ", " ((λ family, lower family +:+ "/") <$> devices.*1));
    EInput "Enter to continue, ctrl-C to cancel" ].
Proof. unfold shown, dirs_line. by rewrite <- list_fmap_compose. Qed.

(** A loop that completes has asked for the source directory of every
    family. *)
Lemma process_makes_directories (tbl : table)
    (devices : list (string * list string)) (u : unit) (family : string) :
  (process tbl devices).2 = inr u →
  family ∈ devices.*1 →
  EMakedirs (path_join (lower family) "src") ∈ (process tbl devices).1.
Proof.
  induction devices as [|[f c] l IH]; cbn [process].
  - intros _ H. by apply elem_of_nil in H.
  - destruct (render_family tbl f c) as [e|a]; [done|].
    destruct (process tbl l) as [evs r]. cbn [fst snd] in *.
    rewrite fmap_cons. cbn [fst].
    intros Hr [->|Hin]%elem_of_cons.
    + apply elem_of_app. left. unfold write_family. left.
    + apply elem_of_app. right. by apply IH.
Qed.

(** *** Lengths, and texts that determine their device *)

Lemma length_append (a b : string) :
  String.length (a +:+ b) = (String.length a + String.length b)%nat.
Proof.
  induction a as [|c a IH]; [done|].
  rewrite append_cons. cbn [String.length]. by rewrite IH.
Qed.

Lemma length_upper (s : string) : String.length (upper s) = String.length s.
Proof.
  induction s as [|c s IH]; [done|].
  unfold upper in *. cbn [map_chars String.length]. by rewrite IH.
Qed.

Lemma append_eq_length (a a' b b' : string) :
  String.length a = String.length a' →
  a +:+ b = a' +:+ b' → a = a' ∧ b = b'.
Proof.
  revert a'. induction a as [|c a IH]; intros [|c' a']; try discriminate.
  - by rewrite !append_nil_l.
  - cbn [String.length]. intros [= Hl]. rewrite !append_cons.
    intros [= -> Heq]. destruct (IH a' Hl Heq) as [-> ->]. done.
Qed.

(** The branch of a device is the branch of no other device. *)
Lemma device_branch_inj (x y : string) :
  device_branch x = device_branch y → x = y.
Proof.
  set (P := "if env::var_os(" +:+ dq +:+ "CARGO_FEATURE_").
  set (M := dq +:+ ").is_some() {" +:+ nl +:+ "            " +:+ dq +:+ "src/").
  set (S := "/device.x" +:+ dq +:+ nl +:+ "        }").
  assert (∀ d, device_branch d = P +:+ upper d +:+ M +:+ d +:+ S) as Hparts
    by reflexivity.
  rewrite !Hparts. intros Heq.
  assert (String.length x = String.length y) as Hlen.
  { apply (f_equal String.length) in Heq.
    rewrite !length_append, !length_upper in Heq. lia. }
  apply (inj (String.app P)) in Heq.
  apply append_eq_length in Heq as [_ Heq]; [|by rewrite !length_upper].
  apply (inj (String.app M)) in Heq.
  by apply append_eq_length in Heq as [-> _].
Qed.

Lemma count_occ_fmap_inj (f : string → string) (l : list string) (x : string) :
  (∀ a b, f a = f b → a = b) →
  count_occ string_dec (f <$> l) (f x) = count_occ string_dec l x.
Proof.
  intros Hf. induction l as [|a l IH]; [done|].
  rewrite fmap_cons. cbn [count_occ].
  destruct (string_dec (f a) (f x)) as [E|E], (string_dec a x) as [E'|E'].
  - by rewrite IH.
  - destruct E'. by apply Hf.
  - destruct E. by rewrite E'.
  - exact IH.
Qed.

End NameFacts.

(** ** The properties of the run and of the rendered texts *)

Module Properties.
Import Py PyFacts Makecrates MakecratesFacts NameFacts.
Local Open Scope list_scope.

Local Ltac no_output Hin Hout :=
  repeat (apply elem_of_cons in Hin as [->|Hin]; [discriminate Hout|]);
  apply elem_of_nil in Hin; contradiction.

Local Ltac all_silent Hin :=
  repeat (apply elem_of_cons in Hin as [->|Hin]; [reflexivity|]);
  apply elem_of_nil in Hin; contradiction.

(** C1, as stated, does not hold.  The directory has a file of [stm32f1]
    and a file of [stm32zz]; [stm32zz] is no key of [CRATE_DOC_FEATURES].
    The run ends in the [KeyError] of [stm32zz], and by then the four
    files of [stm32f1] have been written. *)
Lemma unknown_family_after_written_family :
  dict_get "stm32zz"
    (collect (glob_yaml "devices" (listing world_unknown_family)))
    = Some ["stm32zz01"]
  ∧ CRATE_DOC_FEATURES !! "stm32zz" = None
  ∧ (run world_unknown_family).2 = Uncaught (KeyError "stm32zz")
  ∧ (writes (run world_unknown_family).1).*1 = crate_paths "stm32f1".
Proof. vm_compute. done. Qed.

(** C1, amended: when the table is loaded and the operator has entered a
    line, and the families before [family] in the order of processing
    render, a [family] whose lowercased name is no key of
    [CRATE_DOC_FEATURES] ends the run in the [KeyError] of that name.  The
    events of the run are the listing, the prompt and what was written
    for the families before it: nothing is written for [family] or for a
    family after it. *)
Theorem doc_features_missing_stops_run
    (w : world) (prog dir : string) (tbl : table) (text : string)
    (pre post : list (string * list string))
    (family : string) (collected : list string) :
  argv w = [prog; dir] →
  table_file w = inr tbl →
  operator w = Line text →
  collect (glob_yaml dir (listing w)) = pre ++ (family, collected) :: post →
  Forall (renders tbl) pre →
  CRATE_DOC_FEATURES !! lower family = None →
  run w =
  ((shown (collect (glob_yaml dir (listing w)))
    ++ concat (written_for tbl <$> pre))%list,
   Uncaught (KeyError (lower family))).
Proof.
  intros Hargv Ht Ho Hc Hpre Hdoc.
  rewrite (run_main w prog dir Hargv).
  rewrite (main_confirmed w dir tbl text Ht Ho). cbn zeta.
  assert (process tbl (collect (glob_yaml dir (listing w))) =
          (concat (written_for tbl <$> pre), inl (KeyError (lower family))))
    as ->.
  { rewrite Hc. apply process_stops; [done|].
    by apply render_family_doc_missing. }
  reflexivity.
Qed.

Lemma doc_features_missing_stops_run_witness :
  run world_unknown_family =
  ((shown (collect (glob_yaml "devices" (listing world_unknown_family)))
    ++ concat (written_for sample_table <$> [("stm32f1", ["stm32f103"])]))%list,
   Uncaught (KeyError (lower "stm32zz"))).
Proof.
  apply (doc_features_missing_stops_run world_unknown_family
           PROG "devices" sample_table EmptyString
           [("stm32f1", ["stm32f103"])] [] "stm32zz" ["stm32zz01"]).
  - reflexivity.
  - reflexivity.
  - reflexivity.
  - vm_compute. reflexivity.
  - constructor; [|constructor].
    eexists. vm_compute. reflexivity.
  - vm_compute. reflexivity.
Defined.

(** C2: a directory is created or a file written only in a run that has
    shown the list of the directories of the collected families and has
    read a line from the operator at the prompt, after both, and the path
    is the source directory or one of the four files in the directory of
    a listed family.  What is shown is the heading, then one line that
    names, for each key of the collected dictionary in its order, the
    lowercased family followed by a slash, the names separated by commas,
    then the prompt; a run that has its two words on the command line and
    a table that loads shows it, whatever the operator does then.  When
    the operator does not enter a line (the interrupt the prompt names, or
    the end of the input), the run ends there with the exception: it does
    not end with status zero, creates no directory and writes no file.  A
    run that ends with status zero has asked for the source directory of
    every listed family.  The text of the line is not looked at: any line
    confirms. *)
Theorem confirmation_gate (w : world) :
  (∀ ev p, ev ∈ (run w).1 → output_path ev = Some p →
     ∃ prog dir text rest,
       argv w = [prog; dir]
       ∧ operator w = Line text
       ∧ (run w).1 =
         [ EPrint "Going to create/update the following directories:";
           EPrint (join ", " ((λ family, lower family +:+ "/")
                                <$> (collect (glob_yaml dir (listing w))).*1));
           EInput "Enter to continue, ctrl-C to cancel" ] ++ rest
       ∧ ev ∈ rest
       ∧ ∃ family,
           family ∈ (collect (glob_yaml dir (listing w))).*1
           ∧ p ∈ [ lower family +:+ "/src"; lower family +:+ "/Cargo.toml";
                   lower family +:+ "/README.md";
                   lower family +:+ "/src/lib.rs";
                   lower family +:+ "/build.rs" ])
  ∧ ((∀ text, operator w ≠ Line text) →
       exits_zero (run w).2 = false
       ∧ writes (run w).1 = []
       ∧ ∀ ev, ev ∈ (run w).1 → output_path ev = None)
  ∧ (∀ prog dir tbl,
       argv w = [prog; dir] → table_file w = inr tbl →
       ∃ rest,
         (run w).1 =
         [ EPrint "Going to create/update the following directories:";
           EPrint (join ", " ((λ family, lower family +:+ "/")
                                <$> (collect (glob_yaml dir (listing w))).*1));
           EInput "Enter to continue, ctrl-C to cancel" ] ++ rest
         ∧ ((∀ text, operator w ≠ Line text) →
              rest = [] ∧ ∃ e, (run w).2 = Uncaught e)
         ∧ (exits_zero (run w).2 = true →
              ∀ family, family ∈ (collect (glob_yaml dir (listing w))).*1 →
                        EMakedirs (lower family +:+ "/src") ∈ rest)).
Proof.
  split_and!.
  - intros ev p Hin Hout. unfold run in Hin.
    destruct (argv w) as [|prog [|dir [|x l]]] eqn:Hargv;
      try (cbn in Hin; no_output Hin Hout).
    rewrite (run_main w prog dir Hargv). cbn [fst].
    destruct (main dir w) as [evs r] eqn:Hm. cbn [fst] in *.
    unfold main in Hm.
    destruct (table_file w) as [e|tbl] eqn:Ht.
    { injection Hm as <- <-. no_output Hin Hout. }
    destruct (operator w) as [text| |] eqn:Ho.
    + destruct (process tbl _) as [evs' r'] eqn:Hp.
      injection Hm as <- <-.
      do 3 (apply elem_of_cons in Hin as [->|Hin]; [discriminate Hout|]).
      exists prog, dir, text, evs'. split_and!; try done.
      { exact (f_equal (λ l, l ++ evs') (shown_explicit _)). }
      assert (ev ∈ (process tbl (collect (glob_yaml dir (listing w)))).1)
        as Hin' by by rewrite Hp.
      apply process_events in Hin' as ([f cl] & a & Hfd & _ & Hev).
      exists f. split.
      { apply list_elem_of_fmap. by exists (f, cl). }
      destruct (collected_family_of_path _ _ _ Hfd) as (p' & Hp' & <-).
      destruct (glob_family_is_name _ _ _ Hp') as [Hne Hs].
      rewrite <- (crate_outputs_explicit (lower (family_of p')));
        [|by apply lower_not_nil|by rewrite has_sep_lower].
      cbn [fst] in Hev. unfold write_family in Hev.
      unfold crate_outputs, crate_paths.
      repeat (apply elem_of_cons in Hev as [->|Hev];
              [injection Hout as <-; set_solver|]).
      by apply elem_of_nil in Hev.
    + injection Hm as <- <-. unfold shown in Hin. no_output Hin Hout.
    + injection Hm as <- <-. unfold shown in Hin. no_output Hin Hout.
  - intros Hno. unfold run.
    destruct (argv w) as [|prog [|dir [|x l]]] eqn:Hargv; cbn [fst snd].
    + split_and!; [done|done|]. intros ev H. all_silent H.
    + split_and!; [done|done|]. intros ev H. all_silent H.
    + unfold main. destruct (table_file w) as [e|tbl].
      { split_and!; [done|done|]. intros ev H. all_silent H. }
      destruct (operator w) as [text| |] eqn:Ho.
      * by destruct (Hno text).
      * split_and!; [done|done|]. intros ev H. unfold shown in H. all_silent H.
      * split_and!; [done|done|]. intros ev H. unfold shown in H. all_silent H.
    + split_and!; [done|done|]. intros ev H. all_silent H.
  - intros prog dir tbl Hargv Ht.
    rewrite (run_main w prog dir Hargv). unfold main. rewrite Ht.
    set (devices := collect (glob_yaml dir (listing w))).
    destruct (operator w) as [text| |] eqn:Ho.
    + destruct (process tbl devices) as [evs r] eqn:Hp. cbn [fst snd].
      exists evs. split_and!.
      * by rewrite shown_explicit.
      * intros Hno. by destruct (Hno text).
      * destruct r as [e|u]; [discriminate|]. intros _ family Hin.
        pose proof (process_makes_directories tbl devices u family) as Hmk.
        rewrite Hp in Hmk. cbn [fst snd] in Hmk.
        specialize (Hmk eq_refl Hin).
        apply list_elem_of_fmap in Hin as ([f cl] & -> & Hfd).
        destruct (collected_family_of_path _ _ _ Hfd) as (p' & Hp' & Hf).
        cbn [fst] in *. subst f.
        destruct (glob_family_is_name _ _ _ Hp') as [Hne Hs].
        pose proof (crate_outputs_explicit (lower (family_of p'))
                      (lower_not_nil _ Hne)
                      (eq_trans (has_sep_lower _) Hs)) as Hout.
        unfold crate_outputs in Hout. injection Hout as Hsrc _.
        by rewrite <- Hsrc.
    + exists []. cbn [fst snd]. split_and!.
      * by rewrite shown_explicit, app_nil_r.
      * intros _. split; [done|by eexists].
      * discriminate.
    + exists []. cbn [fst snd]. split_and!.
      * by rewrite shown_explicit, app_nil_r.
      * intros _. split; [done|by eexists].
      * discriminate.
Qed.

Lemma confirmation_gate_witness :
  (exits_zero (run world_cancelled).2 = false
   ∧ writes (run world_cancelled).1 = []
   ∧ ∀ ev, ev ∈ (run world_cancelled).1 → output_path ev = None)
  ∧ (run world_cancelled).1 =
    [ EPrint "Going to create/update the following directories:";
      EPrint "stm32f1/";
      EInput "Enter to continue, ctrl-C to cancel" ]
  ∧ ∃ rest,
      (run world_one_file).1 =
      [ EPrint "Going to create/update the following directories:";
        EPrint "stm32f1/";
        EInput "Enter to continue, ctrl-C to cancel" ] ++ rest
      ∧ EMakedirs "stm32f1/src" ∈ rest.
Proof.
  destruct (confirmation_gate world_cancelled) as (_ & H2 & H3).
  assert (∀ text, operator world_cancelled ≠ Line text) as Hno
    by (intros text; simpl; discriminate).
  split; [exact (H2 Hno)|].
  destruct (H3 PROG "devices" sample_table eq_refl eq_refl)
    as (rest & Hr & Hn & _).
  destruct (Hn Hno) as [-> _]. split; [exact Hr|].
  destruct (confirmation_gate world_one_file) as (H1 & _).
  destruct (H1 (EMakedirs "stm32f1/src") "stm32f1/src")
    as (prog & dir & text & rest & Hargv & _ & Hrun & Hin & _).
  - vm_compute. do 3 right. left.
  - reflexivity.
  - injection Hargv as <- <-. exists rest. split; [exact Hrun|exact Hin].
Defined.



(** *** The texts and their parts *)

Lemma remove_dups_NoDup (l : list string) : NoDup l → remove_dups l = l.
Proof.
  induction 1 as [|x l Hx Hnd IH]; [done|].
  cbn [remove_dups]. rewrite IH.
  destruct (decide_rel elem_of x l); [contradiction|done].
Qed.

Lemma cargo_toml_ends_with_features :
  template_ends CARGO_TOML_TPL FEATURES_SECTION_TPL = true.
Proof. vm_compute. reflexivity. Qed.

Lemma readme_ends_with_coverage_table :
  template_ends README_TPL COVERAGE_TABLE_TPL = true.
Proof. vm_compute. reflexivity. Qed.

Lemma readme_has_usage_lines :
  template_has README_TPL USAGE_FEATURES_TPL = true
  ∧ template_has README_TPL USAGE_USE_TPL = true
  ∧ template_has README_TPL USAGE_TAKE_TPL = true
  ∧ count_field "device" README_TPL = 3%nat.
Proof. vm_compute. done. Qed.

Lemma build_has_device_file_line :
  template_has BUILD_TPL DEVICE_FILE_TPL = true
  ∧ count_field "device_clauses" BUILD_TPL = 1%nat.
Proof. vm_compute. done. Qed.

(** What the four templates give, for any values of their fields: the
    rendering succeeds, and the text holds the parts named above. *)
Lemma format_cargo_toml_parts (family crate version features docs : string) :
  ∃ text,
    format CARGO_TOML_TPL []
      [("family", family); ("crate", crate); ("version", version);
       ("features", features); ("docs_features", docs)] = inr text
    ∧ has_suffix text (features_section features).
Proof.
  destruct (format CARGO_TOML_TPL [] _) as [e|text] eqn:Hf.
  { vm_compute in Hf. discriminate Hf. }
  exists text. split; [reflexivity|].
  destruct (format_suffix _ _ _ _ cargo_toml_ends_with_features Hf)
    as (v & Hv & Hs).
  vm_compute in Hv. injection Hv as <-. exact Hs.
Qed.

Lemma format_readme_parts
    (family crate device version svd2rust_version rows : string) :
  ∃ text,
    format README_TPL []
      [("family", family); ("crate", crate); ("device", device);
       ("version", version); ("svd2rust_version", svd2rust_version);
       ("devices", rows)] = inr text
    ∧ contains text (usage_features_line device)
    ∧ contains text (usage_use_line crate device)
    ∧ contains text (usage_take_line device)
    ∧ has_suffix text (coverage_table rows).
Proof.
  destruct (format README_TPL [] _) as [e|text] eqn:Hf.
  { vm_compute in Hf. discriminate Hf. }
  destruct readme_has_usage_lines as (H1 & H2 & H3 & _).
  exists text. split_and!.
  - reflexivity.
  - destruct (format_contains _ _ _ _ H1 Hf) as (v & Hv & Hc).
    vm_compute in Hv. injection Hv as <-. exact Hc.
  - destruct (format_contains _ _ _ _ H2 Hf) as (v & Hv & Hc).
    vm_compute in Hv. injection Hv as <-. exact Hc.
  - destruct (format_contains _ _ _ _ H3 Hf) as (v & Hv & Hc).
    vm_compute in Hv. injection Hv as <-. exact Hc.
  - destruct (format_suffix _ _ _ _ readme_ends_with_coverage_table Hf)
      as (v & Hv & Hc).
    vm_compute in Hv. injection Hv as <-. exact Hc.
Qed.

Lemma format_lib_rs_total (family mods crate svd2rust_version : string) :
  ∃ text,
    format SRC_LIB_RS_TPL []
      [("family", family); ("mods", mods); ("crate", crate);
       ("svd2rust_version", svd2rust_version)] = inr text.
Proof.
  destruct (format SRC_LIB_RS_TPL [] _) as [e|text] eqn:Hf.
  { vm_compute in Hf. discriminate Hf. }
  by exists text.
Qed.

Lemma format_build_parts (clauses : string) :
  ∃ text,
    format BUILD_TPL [] [("device_clauses", clauses)] = inr text
    ∧ contains text (device_file_line clauses).
Proof.
  destruct (format BUILD_TPL [] _) as [e|text] eqn:Hf.
  { vm_compute in Hf. discriminate Hf. }
  destruct build_has_device_file_line as [H1 _].
  exists text. split; [reflexivity|].
  destruct (format_contains _ _ _ _ H1 Hf) as (v & Hv & Hc).
  vm_compute in Hv. injection Hv as <-. exact Hc.
Qed.

Lemma render_cargo_toml_total (family features : string) (docs : list string) :
  CRATE_DOC_FEATURES !! lower family = Some docs →
  ∃ text, render_cargo_toml family features = inr text.
Proof.
  intros Hl. unfold render_cargo_toml. rewrite Hl.
  destruct (format_cargo_toml_parts (upper family) (lower family) VERSION
              features (str_of_list docs)) as (text & Hf & _).
  exists text. exact Hf.
Qed.

(** The manifest ends with the features section. *)
Lemma cargo_toml_features_section (family features text : string) :
  render_cargo_toml family features = inr text →
  has_suffix text (features_section features).
Proof.
  unfold render_cargo_toml.
  destruct (CRATE_DOC_FEATURES !! lower family) as [docs|]; [|discriminate].
  intros Hr.
  destruct (format_cargo_toml_parts (upper family) (lower family) VERSION
              features (str_of_list docs)) as (text' & Hf & Hs).
  rewrite Hf in Hr. injection Hr as <-. exact Hs.
Qed.

Lemma render_lib_rs_total (family mods : string) :
  ∃ text, render_lib_rs family mods = inr text.
Proof. apply format_lib_rs_total. Qed.

Lemma render_build_rs_total (clauses : string) :
  ∃ text, render_build_rs clauses = inr text.
Proof.
  destruct (format_build_parts clauses) as (text & Hf & _).
  exists text. exact Hf.
Qed.

(** The build script holds the chain in its line for the device file. *)
Lemma build_rs_device_file_line (clauses text : string) :
  render_build_rs clauses = inr text →
  contains text (device_file_line clauses).
Proof.
  unfold render_build_rs. intros Hr.
  destruct (format_build_parts clauses) as (text' & Hf & Hc).
  rewrite Hf in Hr. injection Hr as <-. exact Hc.
Qed.

Lemma render_readme_total (tbl : table) (family : string)
    (devices : list string) (d : string) (items : list (string * device_entry)) :
  devices !! 0%nat = Some d → tbl !! family = Some items →
  ∃ text, render_readme tbl family devices = inr text.
Proof.
  intros Hd Hl. unfold render_readme.
  rewrite Hd, (make_device_rows_eq tbl family items Hl). cbn [bind].
  destruct (format_readme_parts (upper family) (lower family) d VERSION
              SVD2RUST_VERSION
              (join nl (sorted ((λ it, row_text it.1 it.2) <$> items))))
    as (text & Hf & _).
  exists text. exact Hf.
Qed.

(** The readme names its device in the three lines of the usage example
    and ends with the coverage table, whose rows are those of the table. *)
Lemma readme_parts (tbl : table) (family : string)
    (devices : list string) (text : string) :
  render_readme tbl family devices = inr text →
  ∃ d items,
    devices !! 0%nat = Some d
    ∧ tbl !! family = Some items
    ∧ contains text (usage_features_line d)
    ∧ contains text (usage_use_line (lower family) d)
    ∧ contains text (usage_take_line d)
    ∧ has_suffix text (coverage_table (join nl (table_rows items))).
Proof.
  unfold render_readme. destruct (devices !! 0%nat) as [d|]; [|discriminate].
  destruct (tbl !! family) as [items|] eqn:Hl.
  - rewrite (make_device_rows_eq tbl family items Hl). cbn [bind].
    intros Hr.
    destruct (format_readme_parts (upper family) (lower family) d VERSION
                SVD2RUST_VERSION
                (join nl (sorted ((λ it, row_text it.1 it.2) <$> items))))
      as (text' & Hf & H1 & H2 & H3 & H4).
    rewrite Hf in Hr. injection Hr as <-.
    exists d, items.
    exact (conj eq_refl (conj eq_refl (conj H1 (conj H2 (conj H3 H4))))).
  - rewrite (make_device_rows_missing tbl family Hl). discriminate.
Qed.

Lemma render_family_inv (tbl : table) (family : string)
    (collected : list string) (a : artifacts) :
  render_family tbl family collected = inr a →
  render_cargo_toml family (features_text (sorted collected)) = inr (cargo_toml a)
  ∧ render_readme tbl family (sorted collected) = inr (readme a)
  ∧ render_lib_rs family (mods_text (sorted collected)) = inr (lib_rs a)
  ∧ render_build_rs (chain_text (sorted collected)) = inr (build_rs a).
Proof.
  rewrite render_family_eq. cbn zeta.
  destruct (render_cargo_toml _ _) as [?|c]; [done|].
  destruct (render_readme _ _ _) as [?|r]; [done|].
  destruct (render_lib_rs _ _) as [?|l]; [done|].
  destruct (render_build_rs _) as [?|b]; [done|].
  cbn [bind ret]. by intros [= <-].
Qed.

(** A family that has its documentation features, a key in the table and a
    collected device renders. *)
Lemma render_family_total (tbl : table) (family : string)
    (collected docs : list string) (items : list (string * device_entry)) :
  CRATE_DOC_FEATURES !! lower family = Some docs →
  tbl !! family = Some items →
  collected ≠ [] →
  renders tbl (family, collected).
Proof.
  intros Hdocs Hl Hne. unfold renders. cbn [fst snd].
  rewrite render_family_eq. cbn zeta.
  destruct (render_cargo_toml_total family
              (features_text (sorted collected)) docs Hdocs) as [c ->].
  destruct (sorted_head_some collected Hne) as [d Hd].
  destruct (render_readme_total tbl family (sorted collected) d items Hd Hl)
    as [r ->].
  destruct (render_lib_rs_total family (mods_text (sorted collected)))
    as [l ->].
  destruct (render_build_rs_total (chain_text (sorted collected))) as [b ->].
  by eexists.
Qed.

(** C3, as stated, does not hold.  [STM32F1a.yaml] and [STM32F1A.yaml]
    are two files of the family [STM32F1] with one lowercased stem; the
    identifier is collected twice, and the manifest written for the family
    ends with its feature flag on two lines, where the de-duplicated set
    has one element. *)
Lemma duplicate_feature_flags :
  dict_get "STM32F1"
    (collect (glob_yaml "devices" (listing world_same_stem)))
    = Some ["stm32f1a"; "stm32f1a"]
  ∧ sorted (remove_dups ["stm32f1a"; "stm32f1a"]) = ["stm32f1a"]
  ∧ make_features (sorted ["stm32f1a"; "stm32f1a"])
    = inr (feature_line "stm32f1a" +:+ nl +:+ feature_line "stm32f1a")
  ∧ ∃ text,
      (path_join "stm32f1" "Cargo.toml", text)
        ∈ writes (run world_same_stem).1
      ∧ ends_with (features_section
                     (feature_line "stm32f1a" +:+ nl +:+ feature_line "stm32f1a"))
                  text = true.
Proof.
  split_and!; [vm_compute; reflexivity..|].
  eexists. split.
  - vm_compute. left.
  - vm_compute. reflexivity.
Qed.

(** C3, amended: the identifiers collected under a family are the
    lowercased stems of the family's filenames, in the order of the
    listing and as often as the filenames give them.  The feature flags
    of the manifest are these identifiers in sorted order, duplicates
    kept, one line each; the manifest is rendered when the family has its
    documentation features, and it ends with the features section made of
    these lines.  When the stems are pairwise distinct the flags are the
    sorted de-duplicated set and no flag appears twice. *)
Theorem manifest_features_sorted_ids
    (paths : list string) (family : string) (collected docs : list string) :
  dict_get family (collect paths) = Some collected →
  CRATE_DOC_FEATURES !! lower family = Some docs →
  collected = ids_of family paths
  ∧ sorted collected ≡ₚ ids_of family paths
  ∧ StronglySorted String.le (sorted collected)
  ∧ make_features (sorted collected) = inr (features_text (sorted collected))
  ∧ (∃ text,
       render_cargo_toml family (features_text (sorted collected)) = inr text
       ∧ has_suffix text (features_section (features_text (sorted collected)))
       ∧ ∀ tbl a, render_family tbl family collected = inr a →
                  cargo_toml a = text)
  ∧ (NoDup (ids_of family paths) →
       NoDup (sorted collected)
       ∧ sorted collected = sorted (remove_dups (ids_of family paths))).
Proof.
  intros Hget Hdocs.
  apply dict_get_collect_Some in Hget as [Hids _].
  split_and!.
  - exact Hids.
  - rewrite <- Hids. apply sorted_Permutation.
  - apply sorted_StronglySorted.
  - by rewrite make_features_eq, sorted_idemp.
  - destruct (render_cargo_toml_total family
                (features_text (sorted collected)) docs Hdocs) as [text Ht].
    exists text. split_and!.
    + exact Ht.
    + by apply (cargo_toml_features_section family).
    + intros tbl a Ha. apply render_family_inv in Ha as (Hc & _).
      rewrite Ht in Hc. by injection Hc.
  - intros Hnd. rewrite <- Hids in *. split.
    + by apply sorted_NoDup.
    + by rewrite remove_dups_NoDup.
Qed.

Lemma manifest_features_sorted_ids_witness :
  let paths := glob_yaml "devices" (listing world_short_table) in
  ["stm32f103"; "stm32f107"] = ids_of "stm32f1" paths
  ∧ sorted ["stm32f103"; "stm32f107"] ≡ₚ ids_of "stm32f1" paths.
Proof.
  intros paths.
  destruct (manifest_features_sorted_ids paths "stm32f1"
              ["stm32f103"; "stm32f107"]
              ["rt"; "stm32f100"; "stm32f101"; "stm32f102"; "stm32f103";
               "stm32f107"]) as (H1 & H2 & _).
  - vm_compute. reflexivity.
  - vm_compute. reflexivity.
  - exact (conj H1 H2).
Defined.

(** C4, as stated, does not hold.  The directory has the files of
    [stm32f103] and [stm32f107], the table has [stm32f103] only under
    [stm32f1]: the rows are built without an error, the table of the
    readme has the one row, and the run ends with status zero. *)
Lemma missing_device_raises_nothing :
  dict_get "stm32f1"
    (collect (glob_yaml "devices" (listing world_short_table)))
    = Some ["stm32f103"; "stm32f107"]
  ∧ short_table !! "stm32f1" = Some [("stm32f103", entry_f103)]
  ∧ make_device_rows short_table "stm32f1"
    = inr (row_text "stm32f103" entry_f103)
  ∧ (run world_short_table).2 = Exit 0.
Proof. split_and!; vm_compute; reflexivity. Qed.

(** C4, amended: the rows are built from the entries of the table under
    the family and from nothing else.  Building them raises the
    [KeyError] of the family when the family is no key of the table, and
    succeeds otherwise, whichever devices were collected; with the family
    in the table and a device collected the readme is rendered.  A
    collected device that the table does not have has no row. *)
Theorem device_rows_fail_on_family_only (tbl : table) (family : string) :
  (tbl !! family = None →
     make_device_rows tbl family = inl (KeyError family)
     ∧ ∀ devices d, devices !! 0%nat = Some d →
         render_readme tbl family devices = inl (KeyError family))
  ∧ (∀ items, tbl !! family = Some items →
       make_device_rows tbl family = inr (join nl (table_rows items))
       ∧ ∀ devices d, devices !! 0%nat = Some d →
           ∃ text, render_readme tbl family devices = inr text).
Proof.
  split.
  - intros Hl. split; [by apply make_device_rows_missing|].
    intros devices d Hd. unfold render_readme.
    by rewrite Hd, make_device_rows_missing.
  - intros items Hl. split; [by apply make_device_rows_eq|].
    intros devices d Hd. by apply (render_readme_total tbl family devices d items).
Qed.

Lemma device_rows_fail_on_family_only_witness :
  make_device_rows short_table "stm32f4" = inl (KeyError "stm32f4")
  ∧ make_device_rows short_table "stm32f1"
    = inr (join nl (table_rows [("stm32f103", entry_f103)])).
Proof.
  destruct (device_rows_fail_on_family_only short_table "stm32f4") as [H1 _].
  destruct (device_rows_fail_on_family_only short_table "stm32f1") as [_ H2].
  split.
  - apply H1. vm_compute. reflexivity.
  - apply (H2 [("stm32f103", entry_f103)]). vm_compute. reflexivity.
Defined.

(** C5, as stated, does not hold.  The directory has the file of
    [stm32f103] alone; the table has [stm32f103] and [stm32f107] under
    [stm32f1]; the readme written for the family ends with the rows of
    both. *)
Lemma row_without_collected_device :
  dict_get "stm32f1"
    (collect (glob_yaml "devices" (listing world_one_file)))
    = Some ["stm32f103"]
  ∧ make_device_rows sample_table "stm32f1"
    = inr (row_text "stm32f103" entry_f103 +:+ nl
           +:+ row_text "stm32f107" entry_f107)
  ∧ ∃ text,
      (path_join "stm32f1" "README.md", text) ∈ writes (run world_one_file).1
      ∧ ends_with (coverage_table
                     (row_text "stm32f103" entry_f103 +:+ nl
                      +:+ row_text "stm32f107" entry_f107))
                  text = true.
Proof.
  split_and!; [vm_compute; reflexivity..|].
  eexists. split.
  - vm_compute. right. left.
  - vm_compute. reflexivity.
Qed.

(** C5, amended: the coverage table of the readme has one row for each
    entry of the reference table under the family, whether or not a file
    of that device was collected.  A row is made of the device, its
    members separated by commas, the reference manual under its title and
    the vendor page; the rows stand in the order of their whole text, one
    per line, under the heading of the table at the end of the readme.
    When the devices of the table under the family are the collected
    ones, there is one row for each collected device. *)
Theorem readme_rows_from_table
    (tbl : table) (family : string) (items : list (string * device_entry))
    (collected : list string) (a : artifacts) :
  tbl !! family = Some items →
  render_family tbl family collected = inr a →
  table_rows items ≡ₚ (λ it, row_text it.1 it.2) <$> items
  ∧ length (table_rows items) = length items
  ∧ StronglySorted String.le (table_rows items)
  ∧ make_device_rows tbl family = inr (join nl (table_rows items))
  ∧ has_suffix (readme a) (coverage_table (join nl (table_rows items)))
  ∧ (items.*1 ≡ₚ collected → length (table_rows items) = length collected).
Proof.
  intros Hl Hr.
  apply render_family_inv in Hr as (_ & Hr & _ & _).
  apply readme_parts in Hr as (d & items' & _ & Hl' & _ & _ & _ & Hs).
  rewrite Hl in Hl'. injection Hl' as <-.
  unfold table_rows in *.
  split_and!.
  - apply sorted_Permutation.
  - by rewrite sorted_length, length_fmap.
  - apply sorted_StronglySorted.
  - by apply make_device_rows_eq.
  - exact Hs.
  - intros Hp. rewrite sorted_length, length_fmap.
    rewrite <- (length_fmap fst items). by apply Permutation_length.
Qed.

Lemma readme_rows_from_table_witness :
  ∃ (a : artifacts),
    render_family sample_table "stm32f1" ["stm32f103"] = inr a
    ∧ has_suffix (readme a)
        (coverage_table
           (join nl (table_rows [("stm32f103", entry_f103);
                                 ("stm32f107", entry_f107)]))).
Proof.
  destruct (render_family sample_table "stm32f1" ["stm32f103"])
    as [e|a] eqn:E; [vm_compute in E; discriminate E|].
  destruct (readme_rows_from_table sample_table "stm32f1"
              [("stm32f103", entry_f103); ("stm32f107", entry_f107)]
              ["stm32f103"] a)
    as (_ & _ & _ & _ & H5 & _).
  - vm_compute. reflexivity.
  - exact E.
  - exists a. split; [reflexivity|exact H5].
Defined.

(** C6, as stated, does not hold.  [STM32F1a.yaml] and [STM32F1A.yaml]
    are two files of the family [STM32F1] with one lowercased stem; the
    device is collected twice, and the chain made for the list, as the
    build script written for the family holds it, has the branch of this
    one device twice: its flag [CARGO_FEATURE_STM32F1A] is tested at two
    places. *)
Lemma same_stem_two_branches :
  dict_get "STM32F1"
    (collect (glob_yaml "devices" (listing world_same_stem)))
    = Some ["stm32f1a"; "stm32f1a"]
  ∧ make_device_clauses (sorted ["stm32f1a"; "stm32f1a"])
    = inr (device_branch "stm32f1a" +:+ " else " +:+ device_branch "stm32f1a"
           +:+ fallback_branch)
  ∧ ∃ text,
      (path_join "stm32f1" "build.rs", text)
        ∈ writes (run world_same_stem).1
      ∧ occurrences (device_branch "stm32f1a") text = 2%nat
      ∧ occurrences ("CARGO_FEATURE_STM32F1A") text = 2%nat.
Proof.
  split_and!; [vm_compute; reflexivity..|].
  eexists. split_and!.
  - vm_compute. do 3 right. left.
  - vm_compute. reflexivity.
  - vm_compute. reflexivity.
Qed.

(** C6, amended: the chain of the build script has one branch for each
    element of the device list, in the sorted order of the identifiers: a
    device has as many branches as the list holds it, so one when the
    identifiers of the list are pairwise distinct, and then no branch
    stands twice.  The branch of a device tests the variable
    [CARGO_FEATURE_] followed by the identifier in upper case and gives
    the path [src/], the identifier, [/device.x]; the branches are joined
    by [else] and followed by the one branch that panics.  For a list
    that is not empty the chain begins with the branch of the least
    identifier.  The build script is rendered and holds the chain as the
    value of its device file, the one place of the template that takes
    it. *)
Theorem build_chain_follows_device_list (devices : list string) :
  devices ≠ [] →
  ∃ d rest,
    sorted devices = d :: rest
    ∧ d ∈ devices ∧ (∀ d', d' ∈ devices → String.le d d')
    ∧ sorted devices ≡ₚ devices
    ∧ StronglySorted String.le (sorted devices)
    ∧ length (device_branch <$> sorted devices) = length devices
    ∧ (∀ x, count_occ string_dec (device_branch <$> sorted devices)
                      (device_branch x)
            = count_occ string_dec devices x)
    ∧ (NoDup devices → NoDup (device_branch <$> sorted devices))
    ∧ make_device_clauses devices
      = inr (join " else " (device_branch d :: (device_branch <$> rest))
             +:+ " else { panic!(" +:+ dq +:+ "No device features selected"
             +:+ dq +:+ "); }")
    ∧ count_field "device_clauses" BUILD_TPL = 1%nat
    ∧ ∃ text,
        render_build_rs (chain_text (sorted devices)) = inr text
        ∧ contains text
            (device_file_line
               (join " else " (device_branch d :: (device_branch <$> rest))
                +:+ fallback_branch))
        ∧ ∀ tbl family a, render_family tbl family devices = inr a →
                          build_rs a = text.
Proof.
  intros Hne.
  destruct (sorted_head_some devices Hne) as [d Hd].
  destruct (sorted_head_least devices d Hd) as [Hin Hle].
  destruct (sorted devices) as [|d0 rest] eqn:E; [discriminate Hd|].
  cbn in Hd. injection Hd as ->.
  exists d, rest. split_and!.
  - reflexivity.
  - exact Hin.
  - exact Hle.
  - rewrite <- E. apply sorted_Permutation.
  - rewrite <- E. apply sorted_StronglySorted.
  - rewrite <- E. by rewrite length_fmap, sorted_length.
  - intros x. rewrite (count_occ_fmap_inj _ _ _ device_branch_inj).
    apply Permutation_count_occ. rewrite <- E. apply sorted_Permutation.
  - intros Hnd. apply (NoDup_fmap_2 _ (Inj0:=device_branch_inj)).
    rewrite <- E. by apply sorted_NoDup.
  - by rewrite make_device_clauses_eq, E.
  - apply build_has_device_file_line.
  - destruct (render_build_rs_total (chain_text (d :: rest))) as [text Ht].
    exists text. split_and!.
    + exact Ht.
    + by apply build_rs_device_file_line.
    + intros tbl family a Ha.
      apply render_family_inv in Ha as (_ & _ & _ & Hb).
      rewrite E, Ht in Hb. by injection Hb.
Qed.

Lemma build_chain_follows_device_list_witness :
  make_device_clauses ["stm32f107"; "stm32f103"]
  = inr (join " else " [device_branch "stm32f103"; device_branch "stm32f107"]
         +:+ " else { panic!(" +:+ dq +:+ "No device features selected"
         +:+ dq +:+ "); }")
  ∧ NoDup (device_branch <$> sorted ["stm32f107"; "stm32f103"]).
Proof.
  destruct (build_chain_follows_device_list ["stm32f107"; "stm32f103"])
    as (d & rest & E & _ & _ & _ & _ & _ & _ & Hnd & Hc & _).
  - discriminate.
  - split.
    + vm_compute in E. injection E as <- <-. exact Hc.
    + apply Hnd. apply NoDup_cons. split; [|apply NoDup_singleton].
      intros H%list_elem_of_singleton. discriminate H.
Defined.

Lemma make_device_rows_same_entries (tbl1 tbl2 : table) (family : string) :
  same_entries family tbl1 tbl2 →
  make_device_rows tbl1 family = make_device_rows tbl2 family.
Proof.
  unfold same_entries.
  destruct (tbl1 !! family) as [items1|] eqn:H1,
           (tbl2 !! family) as [items2|] eqn:H2; try done.
  - intros Hp.
    rewrite (make_device_rows_eq tbl1 family items1 H1).
    rewrite (make_device_rows_eq tbl2 family items2 H2).
    f_equal. f_equal. apply sorted_perm_eq. by rewrite Hp.
  - intros _. by rewrite !make_device_rows_missing.
Qed.

(** C7: the four texts depend on the family, on the sorted list of its
    devices and on what the reference table says of the family, and on
    nothing else that differs between two runs (the versions and the
    table of documentation features are constants of the script).  Take
    two runs: the collected lists have one sorted form, which is the case
    exactly when the directory holds the same files of the family, listed
    in whatever order; the tables have the same entries under the family,
    in whatever order each was loaded, and may differ at every other
    family.  Then each renderer gives the same in both, text for text or
    error for error, the loop body as a whole does, the four texts are
    the same when they are rendered, and so are the files to write. *)
Theorem renderers_deterministic
    (tbl1 tbl2 : table) (family : string) (c1 c2 : list string) :
  (sorted c1 = sorted c2 ↔ c1 ≡ₚ c2)
  ∧ (sorted c1 = sorted c2 →
     same_entries family tbl1 tbl2 →
     render_cargo_toml family (features_text (sorted c1))
       = render_cargo_toml family (features_text (sorted c2))
     ∧ render_build_rs (chain_text (sorted c1))
       = render_build_rs (chain_text (sorted c2))
     ∧ render_readme tbl1 family (sorted c1)
       = render_readme tbl2 family (sorted c2)
     ∧ render_lib_rs family (mods_text (sorted c1))
       = render_lib_rs family (mods_text (sorted c2))
     ∧ render_family tbl1 family c1 = render_family tbl2 family c2
     ∧ written_for tbl1 (family, c1) = written_for tbl2 (family, c2)
     ∧ ∀ a1 a2,
         render_family tbl1 family c1 = inr a1 →
         render_family tbl2 family c2 = inr a2 →
         cargo_toml a1 = cargo_toml a2
         ∧ build_rs a1 = build_rs a2
         ∧ readme a1 = readme a2
         ∧ lib_rs a1 = lib_rs a2).
Proof.
  split; [apply sorted_eq_iff_perm|].
  intros Hs Ht.
  assert (render_readme tbl1 family (sorted c1)
          = render_readme tbl2 family (sorted c2)) as Hreadme.
  { unfold render_readme.
    by rewrite Hs, (make_device_rows_same_entries tbl1 tbl2 family Ht). }
  assert (render_family tbl1 family c1 = render_family tbl2 family c2) as Hr.
  { rewrite !render_family_eq. cbn zeta. by rewrite Hreadme, Hs. }
  split_and!.
  - by rewrite Hs.
  - by rewrite Hs.
  - exact Hreadme.
  - by rewrite Hs.
  - exact Hr.
  - unfold written_for. cbn [fst snd]. by rewrite Hr.
  - intros a1 a2 H1 H2. rewrite Hr, H2 in H1. by injection H1 as <-.
Qed.

Lemma renderers_deterministic_witness :
  render_family sample_table "stm32f1" ["stm32f107"; "stm32f103"]
  = render_family
      {[ "stm32f1" := [("stm32f107", entry_f107); ("stm32f103", entry_f103)] ]}
      "stm32f1" ["stm32f103"; "stm32f107"].
Proof.
  destruct (renderers_deterministic sample_table
              {[ "stm32f1" := [("stm32f107", entry_f107);
                               ("stm32f103", entry_f103)] ]}
              "stm32f1" ["stm32f107"; "stm32f103"] ["stm32f103"; "stm32f107"])
    as [_ H].
  apply H.
  - vm_compute. reflexivity.
  - unfold same_entries.
    assert (sample_table !! "stm32f1"
            = Some [("stm32f103", entry_f103); ("stm32f107", entry_f107)])
      as -> by (vm_compute; reflexivity).
    assert (({[ "stm32f1" := [("stm32f107", entry_f107);
                               ("stm32f103", entry_f103)] ]} : table)
              !! "stm32f1"
            = Some [("stm32f107", entry_f107); ("stm32f103", entry_f103)])
      as -> by (vm_compute; reflexivity).
    apply Permutation_swap.
Defined.

(** The order in which the files of a family are listed does not reach the
    texts. *)
Lemma render_family_perm (tbl : table) (family : string) (c1 c2 : list string) :
  c1 ≡ₚ c2 → render_family tbl family c1 = render_family tbl family c2.
Proof.
  intros Hp. unfold render_family. by rewrite (sorted_perm_eq c1 c2 Hp).
Qed.

(** C9: the usage example of the readme names one device, the first of the
    sorted list, which is one of the collected identifiers and not above
    any of them: it stands in the features line of the manifest excerpt
    and, after the name of the crate, in the two lines of the code
    excerpt, the three places of the template that take a device. *)
Theorem readme_usage_names_least_device
    (tbl : table) (family : string) (collected : list string) (a : artifacts) :
  collected ≠ [] →
  render_family tbl family collected = inr a →
  ∃ d,
    sorted collected !! 0%nat = Some d
    ∧ d ∈ collected
    ∧ (∀ d', d' ∈ collected → String.le d d')
    ∧ contains (readme a) (usage_features_line d)
    ∧ contains (readme a) (usage_use_line (lower family) d)
    ∧ contains (readme a) (usage_take_line d)
    ∧ count_field "device" README_TPL = 3%nat.
Proof.
  intros Hne Hr.
  apply render_family_inv in Hr as (_ & Hr & _ & _).
  apply readme_parts in Hr as (d & items & Hd & _ & H1 & H2 & H3 & _).
  destruct (sorted_head_least collected d Hd) as [Hin Hle].
  exists d. split_and!; try assumption.
  apply readme_has_usage_lines.
Qed.

Lemma readme_usage_names_least_device_witness :
  ∃ (a : artifacts),
    render_family sample_table "stm32f1" ["stm32f107"; "stm32f103"] = inr a
    ∧ contains (readme a) (usage_features_line "stm32f103")
    ∧ contains (readme a) (usage_use_line "stm32f1" "stm32f103").
Proof.
  destruct (render_family sample_table "stm32f1" ["stm32f107"; "stm32f103"])
    as [e|a] eqn:E; [vm_compute in E; discriminate E|].
  destruct (readme_usage_names_least_device sample_table "stm32f1"
              ["stm32f107"; "stm32f103"] a)
    as (d & Hd & _ & _ & H1 & H2 & _).
  - discriminate.
  - exact E.
  - vm_compute in Hd. injection Hd as <-.
    exists a. split_and!; [reflexivity|exact H1|exact H2].
Defined.

(** *** Paths and files *)

(** The four paths of a crate share the part that stands for the
    directory. *)
Lemma crate_paths_prefix (crate : string) :
  ∃ P, crate_paths crate =
       [P +:+ "Cargo.toml"; P +:+ "README.md"; P +:+ "src/lib.rs";
        P +:+ "build.rs"].
Proof.
  unfold crate_paths, path_join. cbn [starts_with_sep].
  destruct (String.eqb crate EmptyString || ends_with_sep crate).
  - exists crate.
    assert (String.eqb (crate +:+ "src") EmptyString = false) as ->.
    { apply String.eqb_neq, append_not_nil. discriminate. }
    rewrite ends_with_sep_app by discriminate. cbn.
    by rewrite append_assoc.
  - exists (crate +:+ "/").
    assert (String.eqb (crate +:+ "/" +:+ "src") EmptyString = false) as ->.
    { apply String.eqb_neq, append_not_nil. discriminate. }
    rewrite ends_with_sep_app by discriminate. cbn.
    by rewrite !append_assoc.
Qed.

Lemma files_after_app (fs : gmap string string) (evs1 evs2 : list event) :
  files_after fs (evs1 ++ evs2) = files_after (files_after fs evs1) evs2.
Proof. apply foldl_app. Qed.

(** After the files of a crate are written they hold its texts, whatever
    was there. *)
Lemma files_after_write_family (fs : gmap string string)
    (crate : string) (a : artifacts) (p c : string) :
  (p, c) ∈ writes (write_family crate a) →
  files_after fs (write_family crate a) !! p = Some c.
Proof.
  rewrite is_write_write_family.
  destruct (crate_paths_prefix crate) as [P HP].
  unfold crate_paths in HP. injection HP as H1 H2 H3 H4.
  unfold write_family, files_after. cbn [foldl apply_event].
  rewrite H1, H2, H3, H4.
  intros Hin.
  repeat (apply elem_of_cons in Hin as [Hin|Hin];
          [injection Hin as -> ->;
           repeat (rewrite lookup_insert_ne
                     by (intros Heq; apply (inj (String.app P)) in Heq;
                         discriminate Heq));
           by rewrite lookup_insert_eq|]).
  by apply elem_of_nil in Hin.
Qed.

Lemma two_elems_split {A} (l : list A) (x y : A) :
  x ∈ l → y ∈ l → x ≠ y →
  ∃ l0 l1 l2, l = l0 ++ x :: l1 ++ y :: l2 ∨ l = l0 ++ y :: l1 ++ x :: l2.
Proof.
  intros Hx Hy Hne.
  apply list_elem_of_split in Hx as (a & b & ->).
  apply elem_of_app in Hy as [Hy|Hy].
  - apply list_elem_of_split in Hy as (a1 & a2 & ->).
    exists a1, a2, b. right. by rewrite <- app_assoc.
  - apply elem_of_cons in Hy as [->|Hy]; [done|].
    apply list_elem_of_split in Hy as (b1 & b2 & ->).
    exists a, b1, b2. by left.
Qed.

Lemma dict_get_Some_elem_of (f : string) (ds : list string)
    (devices : list (string * list string)) :
  dict_get f devices = Some ds → (f, ds) ∈ devices.
Proof.
  induction devices as [|[k c] devices IH]; [done|].
  cbn [dict_get]. case_decide as Hk.
  - intros [= ->]. subst. left.
  - intros H. right. by apply IH.
Qed.

Lemma device_of_in_ids (p : string) (paths : list string) :
  p ∈ paths → device_of p ∈ ids_of (family_of p) paths.
Proof.
  intros Hin. unfold ids_of. apply list_elem_of_fmap.
  exists p. split; [done|]. by apply list_elem_of_filter.
Qed.

Lemma collected_of_path (p : string) (paths : list string) :
  p ∈ paths →
  ∃ c, dict_get (family_of p) (collect paths) = Some c ∧ device_of p ∈ c.
Proof.
  intros Hin. pose proof (device_of_in_ids p paths Hin) as Hd.
  rewrite dict_get_collect.
  destruct (ids_of (family_of p) paths) as [|i ids] eqn:E.
  - by apply elem_of_nil in Hd.
  - by exists (i :: ids).
Qed.

(** C10: two filenames whose seven-character prefixes differ, be it in the
    case of letters only, are collected under two keys, each with its own
    list of devices.  When the lowercased prefixes are equal the four
    paths of the two crates are the same.  One of the two families is
    processed before the other; when both and the families before them
    render, as in every run that completes, the texts of both are written
    to these paths, those of the later family after those of the earlier,
    and once they are written the paths hold the later family's texts. *)
Theorem case_variants_share_directory
    (w : world) (prog dir : string) (tbl : table) (text : string)
    (p1 p2 : string) :
  argv w = [prog; dir] →
  table_file w = inr tbl →
  operator w = Line text →
  p1 ∈ glob_yaml dir (listing w) →
  p2 ∈ glob_yaml dir (listing w) →
  family_of p1 ≠ family_of p2 →
  lower (family_of p1) = lower (family_of p2) →
  ∃ c1 c2,
    dict_get (family_of p1) (collect (glob_yaml dir (listing w))) = Some c1
    ∧ device_of p1 ∈ c1
    ∧ dict_get (family_of p2) (collect (glob_yaml dir (listing w))) = Some c2
    ∧ device_of p2 ∈ c2
    ∧ NoDup (collect (glob_yaml dir (listing w))).*1
    ∧ crate_paths (lower (family_of p1)) = crate_paths (lower (family_of p2))
    ∧ ∃ fa ca fb cb l0 l1 l2,
        ((fa, ca) = (family_of p1, c1) ∧ (fb, cb) = (family_of p2, c2)
         ∨ (fa, ca) = (family_of p2, c2) ∧ (fb, cb) = (family_of p1, c1))
        ∧ collect (glob_yaml dir (listing w))
          = l0 ++ (fa, ca) :: l1 ++ (fb, cb) :: l2
        ∧ ((run w).2 = Exit 0 →
             Forall (renders tbl) (l0 ++ (fa, ca) :: l1 ++ [(fb, cb)]))
        ∧ (Forall (renders tbl) (l0 ++ (fa, ca) :: l1 ++ [(fb, cb)]) →
             ∃ a b E0 E1 E2,
               render_family tbl fa ca = inr a
               ∧ render_family tbl fb cb = inr b
               ∧ (run w).1 =
                 E0 ++ write_family (lower fa) a
                    ++ E1 ++ write_family (lower fa) b ++ E2
               ∧ ∀ fs p c,
                   (p, c) ∈ writes (write_family (lower fa) b) →
                   files_after fs (E0 ++ write_family (lower fa) a
                                      ++ E1 ++ write_family (lower fa) b) !! p
                   = Some c).
Proof.
  intros Hargv Ht Ho Hp1 Hp2 Hne Hlow.
  set (paths := glob_yaml dir (listing w)) in *.
  destruct (collected_of_path p1 paths Hp1) as (c1 & Hc1 & Hd1).
  destruct (collected_of_path p2 paths Hp2) as (c2 & Hc2 & Hd2).
  exists c1, c2. split_and!; try done.
  { apply collect_NoDup. }
  { by rewrite Hlow. }
  rewrite (run_main w prog dir Hargv).
  rewrite (main_confirmed w dir tbl text Ht Ho). cbn zeta. fold paths.
  cbn [fst snd].
  assert (∀ fa ca fb cb l0 l1 l2,
            collect paths = l0 ++ (fa, ca) :: l1 ++ (fb, cb) :: l2 →
            lower fb = lower fa →
            (match (process tbl (collect paths)).2 with
             | inl e => Uncaught e
             | inr _ => Exit 0
             end = Exit 0 →
             Forall (renders tbl) (l0 ++ (fa, ca) :: l1 ++ [(fb, cb)]))
            ∧ (Forall (renders tbl) (l0 ++ (fa, ca) :: l1 ++ [(fb, cb)]) →
               ∃ a b E0 E1 E2,
                 render_family tbl fa ca = inr a
                 ∧ render_family tbl fb cb = inr b
                 ∧ shown (collect paths) ++ (process tbl (collect paths)).1
                   = E0 ++ write_family (lower fa) a
                        ++ E1 ++ write_family (lower fa) b ++ E2
                 ∧ ∀ fs p c,
                     (p, c) ∈ writes (write_family (lower fa) b) →
                     files_after fs (E0 ++ write_family (lower fa) a
                                        ++ E1 ++ write_family (lower fa) b) !! p
                     = Some c)) as Hsplit.
  { intros fa ca fb cb l0 l1 l2 Hl Hlo. split.
    - destruct ((process tbl (collect paths)).2) as [e|[]] eqn:Hproc;
        [discriminate|].
      intros _.
      pose proof (process_ok_inv tbl (collect paths) tt Hproc) as Hall.
      rewrite Hl in Hall.
      replace (l0 ++ (fa, ca) :: l1 ++ (fb, cb) :: l2)
        with ((l0 ++ (fa, ca) :: l1 ++ [(fb, cb)]) ++ l2) in Hall
        by (by rewrite <- !app_assoc; cbn; rewrite <- !app_assoc).
      by apply Forall_app in Hall as [Hall _].
    - intros Hall.
      assert (collect paths = (l0 ++ (fa, ca) :: l1 ++ [(fb, cb)]) ++ l2) as Hl'.
      { rewrite Hl. by rewrite <- !app_assoc; cbn; rewrite <- !app_assoc. }
      assert (process tbl (collect paths) =
              (concat (written_for tbl <$> l0 ++ (fa, ca) :: l1 ++ [(fb, cb)])
                 ++ (process tbl l2).1, (process tbl l2).2)) as ->.
      { rewrite Hl'. by apply process_prefix. }
      cbn [fst].
      apply Forall_app in Hall as [_ Hall].
      apply Forall_cons in Hall as [[a Ha] Hall].
      apply Forall_app in Hall as [_ Hall].
      apply Forall_cons in Hall as [[b Hb] _].
      cbn [fst snd] in Ha, Hb.
      exists a, b, (shown (collect paths) ++ concat (written_for tbl <$> l0)),
        (concat (written_for tbl <$> l1)), (process tbl l2).1.
      split_and!; [done|done| |].
      + repeat (rewrite fmap_app || rewrite fmap_cons
                || rewrite concat_app || rewrite concat_cons).
        rewrite (written_for_renders tbl (fa, ca) a Ha).
        rewrite (written_for_renders tbl (fb, cb) b Hb).
        cbn [fst fmap list_fmap concat]. rewrite Hlo, app_nil_r.
        by rewrite <- !app_assoc.
      + intros fs p c Hin.
        rewrite !app_assoc, files_after_app.
        by apply files_after_write_family. }
  apply dict_get_Some_elem_of in Hc1, Hc2.
  destruct (two_elems_split (collect paths)
              (family_of p1, c1) (family_of p2, c2) Hc1 Hc2)
    as (l0 & l1 & l2 & [Hl|Hl]); [congruence| |].
  - exists (family_of p1), c1, (family_of p2), c2, l0, l1, l2.
    destruct (Hsplit _ _ _ _ _ _ _ Hl (eq_sym Hlow)) as [H1 H2].
    split_and!; [by left|exact Hl|exact H1|exact H2].
  - exists (family_of p2), c2, (family_of p1), c1, l0, l1, l2.
    destruct (Hsplit _ _ _ _ _ _ _ Hl Hlow) as [H1 H2].
    split_and!; [by right|exact Hl|exact H1|exact H2].
Qed.

(** Both spellings of the prefix are in the table: the run completes, and
    the files of [stm32f1] are written twice. *)
Lemma case_variants_share_directory_witness :
  (run world_two_cases).2 = Exit 0
  ∧ (writes (run world_two_cases).1).*1
    = crate_paths "stm32f1" ++ crate_paths "stm32f1"
  ∧ ∃ c1 c2,
      dict_get "stm32f1"
        (collect (glob_yaml "devices" (listing world_two_cases))) = Some c1
      ∧ dict_get "STM32F1"
          (collect (glob_yaml "devices" (listing world_two_cases))) = Some c2
      ∧ crate_paths (lower "stm32f1") = crate_paths (lower "STM32F1").
Proof.
  split; [vm_compute; reflexivity|].
  split; [vm_compute; reflexivity|].
  destruct (case_variants_share_directory world_two_cases
              PROG "devices" two_case_table EmptyString
              "devices/stm32f103.yaml" "devices/STM32F107.yaml")
    as (c1 & c2 & H1 & _ & H2 & _ & _ & H3 & _).
  - reflexivity.
  - reflexivity.
  - reflexivity.
  - vm_compute. left.
  - vm_compute. right. left.
  - vm_compute. discriminate.
  - vm_compute. reflexivity.
  - exists c1, c2. split_and!; [exact H1|exact H2|exact H3].
Defined.

End Properties.

(** ** Further properties of the script *)

Module Extras.
Import Py PyFacts Makecrates MakecratesFacts NameFacts Properties.
Local Open Scope list_scope.

(** *** Characters and names *)

Lemma rfind_go_app (c : ascii) (i : nat) (last : option nat) (a b : string) :
  rfind_go c i last (a +:+ b) =
  rfind_go c (i + String.length a) (rfind_go c i last a) b.
Proof.
  revert i last. induction a as [|x a IH]; intros i last.
  - rewrite append_nil_l. cbn. by rewrite Nat.add_0_r.
  - rewrite append_cons. cbn [rfind_go String.length].
    rewrite IH. by rewrite Nat.add_succ_r.
Qed.

Lemma rfind_go_no_sep (i : nat) (last : option nat) (s : string) :
  has_sep s = false → rfind_go "/" i last s = last.
Proof.
  revert i last. induction s as [|x s IH]; intros i last; [done|].
  cbn [has_sep rfind_go]. intros [Hx Hs]%orb_false_iff.
  rewrite Hx. by apply IH.
Qed.

Lemma take_chars_app (a b : string) : take_chars (String.length a) (a +:+ b) = a.
Proof.
  induction a as [|x a IH]; [by destruct b|].
  rewrite append_cons. cbn [String.length take_chars]. by rewrite IH.
Qed.

Lemma visible_stem_has_non_dot (stem : string) :
  visible_stem stem = true → has_non_dot stem = true.
Proof.
  destruct stem as [|c stem]; [done|]. cbn [visible_stem has_non_dot].
  by intros ->.
Qed.

(** [os.path.splitext] gives back what stands before [.yaml]. *)
Lemma splitext_root_yaml (stem : string) :
  visible_stem stem = true → has_sep stem = false →
  splitext_root (stem +:+ ".yaml") = stem.
Proof.
  intros Hv Hs. unfold splitext_root, rfind.
  rewrite rfind_go_no_sep by (by rewrite has_sep_app, Hs).
  rewrite rfind_go_app. cbn [rfind_go Ascii.eqb Bool.eqb].
  rewrite Nat.add_0_l, Nat.sub_0_r. cbn [drop_chars Nat.leb andb].
  by rewrite !take_chars_app, (visible_stem_has_non_dot _ Hv).
Qed.

Lemma family_of_path_join (dir name : string) :
  has_sep name = false → family_of (path_join dir name) = take_chars 7 name.
Proof. intros H. unfold family_of. by rewrite basename_path_join. Qed.

Lemma device_of_path_join (dir stem : string) :
  visible_stem stem = true → has_sep stem = false →
  device_of (path_join dir (stem +:+ ".yaml")) = lower stem.
Proof.
  intros Hv Hs. unfold device_of.
  rewrite basename_path_join by (by rewrite has_sep_app, Hs).
  by rewrite splitext_root_yaml.
Qed.



(** X2: nothing is collected that no file gives.  With the names of the
    directory free of separators, every device collected under a family is
    the lowercased stem of a file [STEM.yaml] of the directory whose stem is
    not empty and does not start with a dot, and the family is made of the
    first seven characters of that name: names with another ending and
    hidden names leave no trace. *)
Theorem collected_device_has_file
    (dir : string) (names : list string)
    (family : string) (collected : list string) (d : string) :
  Forall (λ n, has_sep n = false) names →
  dict_get family (collect (glob_yaml dir (Some names))) = Some collected →
  d ∈ collected →
  ∃ stem,
    visible_stem stem = true
    ∧ stem +:+ ".yaml" ∈ names
    ∧ d = lower stem
    ∧ family = take_chars 7 (stem +:+ ".yaml").
Proof.
  intros Hnames Hget Hd.
  apply dict_get_collect_Some in Hget as [-> _].
  unfold ids_of in Hd.
  apply list_elem_of_fmap in Hd as (p & -> & [Hf Hp]%list_elem_of_filter).
  apply elem_of_glob_yaml in Hp as (stem & Hv & Hin & ->).
  rewrite Forall_forall in Hnames.
  pose proof (Hnames _ Hin) as Hn.
  assert (has_sep stem = false) as Hs.
  { rewrite has_sep_app in Hn. by apply orb_false_iff in Hn as [-> _]. }
  exists stem. split_and!; [done|done| |].
  - by apply device_of_path_join.
  - rewrite <- Hf. by apply family_of_path_join.
Qed.

Lemma collected_device_has_file_witness :
  ∃ stem,
    visible_stem stem = true
    ∧ stem +:+ ".yaml" ∈ ["README.md"; ".hidden.yaml"; "STM32F103.yaml"]
    ∧ "stm32f103" = lower stem
    ∧ "STM32F1" = take_chars 7 (stem +:+ ".yaml").
Proof.
  apply (collected_device_has_file "devices"
           ["README.md"; ".hidden.yaml"; "STM32F103.yaml"]
           "STM32F1" ["stm32f103"] "stm32f103").
  - repeat constructor.
  - vm_compute. reflexivity.
  - left.
Defined.

(** *** The collected dictionary *)

(** X3: the families are the keys of the dictionary in the order in which
    the first file of each is listed, each once; this is the order of the
    loop, and the line shown before the prompt names their directories in
    it, the lowercased prefix followed by a slash, separated by commas. *)
Theorem families_in_first_seen_order (paths : list string) :
  (collect paths).*1 = first_seen (family_of <$> paths)
  ∧ NoDup (collect paths).*1
  ∧ dirs_line (collect paths)
    = join ", " ((λ f, lower f +:+ "/") <$> first_seen (family_of <$> paths)).
Proof.
  assert ((collect paths).*1 = first_seen (family_of <$> paths)) as Hk.
  { induction paths as [|p paths IH] using rev_ind; [done|].
    rewrite collect_snoc, dict_append_keys, IH.
    rewrite fmap_app. cbn [fmap list_fmap]. rewrite first_seen_snoc.
    destruct (decide (family_of p ∈ family_of <$> paths)) as [Hin|Hin].
    - rewrite decide_True; [done|]. by apply first_seen_elem_of.
    - rewrite decide_False; [done|]. by rewrite first_seen_elem_of. }
  split_and!.
  - exact Hk.
  - apply collect_NoDup.
  - unfold dirs_line. rewrite <- Hk. by rewrite <- list_fmap_compose.
Qed.

Lemma dict_append_values (family device : string)
    (devices : list (string * list string)) :
  concat (dict_append family device devices).*2 ≡ₚ device :: concat devices.*2.
Proof.
  induction devices as [|[k ds] devices IH].
  - done.
  - cbn [dict_append]. destruct (decide (k = family)) as [->|Hne].
    + rewrite !fmap_cons, !concat_cons. cbn [snd].
      rewrite <- app_assoc. cbn [app].
      by rewrite <- Permutation_middle.
    + rewrite !fmap_cons, !concat_cons. cbn [snd]. rewrite IH.
      by rewrite <- Permutation_middle.
Qed.

Lemma dict_append_nonempty (family device : string)
    (devices : list (string * list string)) :
  Forall (λ fd, fd.2 ≠ []) devices →
  Forall (λ fd, fd.2 ≠ []) (dict_append family device devices).
Proof.
  induction 1 as [|[k ds] devices Hd Hall IH].
  - by repeat constructor.
  - cbn [dict_append]. destruct (decide (k = family)).
    + constructor; [|done]. cbn. by destruct ds.
    + constructor; done.
Qed.

(** X4: the collection loses nothing and invents nothing: the lists of the
    dictionary, put together, are a rearrangement of the devices of the
    listed paths, one for each path, and no list is empty, so the first
    device of a family is always there to be taken. *)
Theorem collect_keeps_every_device (paths : list string) :
  concat (collect paths).*2 ≡ₚ device_of <$> paths
  ∧ length (concat (collect paths).*2) = length paths
  ∧ Forall (λ fd, fd.2 ≠ []) (collect paths).
Proof.
  assert (concat (collect paths).*2 ≡ₚ device_of <$> paths) as Hp.
  { induction paths as [|p paths IH] using rev_ind; [done|].
    rewrite collect_snoc, dict_append_values, IH, fmap_app.
    cbn [fmap list_fmap]. by rewrite <- Permutation_cons_append. }
  split_and!.
  - exact Hp.
  - by rewrite Hp, length_fmap.
  - clear Hp. induction paths as [|p paths IH] using rev_ind; [constructor|].
    rewrite collect_snoc. apply dict_append_nonempty, IH.
Qed.

(** X5: the three helpers that take the devices sort them themselves: the
    order in which they are given does not reach the lines of features,
    the module declarations or the chain of clauses, and sorting the list
    beforehand, as [main] does, changes nothing. *)
Theorem helpers_ignore_order (devices devices' : list string) :
  devices ≡ₚ devices' →
  make_features devices = make_features devices'
  ∧ make_mods devices = make_mods devices'
  ∧ make_device_clauses devices = make_device_clauses devices'
  ∧ make_features (sorted devices) = make_features devices
  ∧ make_mods (sorted devices) = make_mods devices
  ∧ make_device_clauses (sorted devices) = make_device_clauses devices.
Proof.
  intros Hp.
  rewrite !make_features_eq, !make_mods_eq, !make_device_clauses_eq.
  rewrite sorted_idemp, (sorted_perm_eq _ _ Hp). done.
Qed.

Lemma helpers_ignore_order_witness :
  make_features ["stm32f107"; "stm32f103"]
  = make_features ["stm32f103"; "stm32f107"].
Proof.
  apply (helpers_ignore_order ["stm32f107"; "stm32f103"]
           ["stm32f103"; "stm32f107"]).
  apply Permutation_swap.
Defined.

(** X6: the rows of the coverage table do not depend on the order in which
    the reference table lists the devices of the family: two tables whose
    entries under the family are rearrangements of one another give the
    same rows. *)
Theorem device_rows_ignore_order
    (tbl tbl' : table) (family : string)
    (items items' : list (string * device_entry)) :
  tbl !! family = Some items →
  tbl' !! family = Some items' →
  items ≡ₚ items' →
  make_device_rows tbl family = make_device_rows tbl' family.
Proof.
  intros Hl Hl' Hp.
  rewrite (make_device_rows_eq tbl family items Hl).
  rewrite (make_device_rows_eq tbl' family items' Hl').
  f_equal. f_equal. apply sorted_perm_eq. by rewrite Hp.
Qed.

Lemma device_rows_ignore_order_witness :
  make_device_rows sample_table "stm32f1"
  = make_device_rows
      {[ "stm32f1" := [("stm32f107", entry_f107); ("stm32f103", entry_f103)] ]}
      "stm32f1".
Proof.
  apply (device_rows_ignore_order sample_table _ "stm32f1"
           [("stm32f103", entry_f103); ("stm32f107", entry_f107)]
           [("stm32f107", entry_f107); ("stm32f103", entry_f103)]).
  - vm_compute. reflexivity.
  - vm_compute. reflexivity.
  - apply Permutation_swap.
Defined.

(** *** The manifest and the library entry point *)

Lemma format_prefix (tpl sub : string) (kwargs : list (string * string))
    (text : string) :
  template_starts tpl sub = true →
  format tpl [] kwargs = inr text →
  ∃ v, format sub [] kwargs = inr v ∧ has_prefix text v.
Proof.
  unfold template_starts, format.
  destruct (parse tpl) as [ps|]; [|done].
  destruct (parse sub) as [u|]; [|done].
  intros (r & ->)%starts_with_pieces_spec.
  rewrite render_app.
  destruct (render 0 u [] kwargs) as [e|v]; cbn [bind]; [done|].
  destruct (render 0 r [] kwargs) as [e|b]; cbn [bind ret]; [done|].
  intros [= <-]. exists v. split; [done|]. by exists b.
Qed.

Lemma cargo_toml_template_parts :
  template_starts CARGO_TOML_TPL PACKAGE_TPL = true
  ∧ template_has CARGO_TOML_TPL DESCRIPTION_TPL = true
  ∧ template_has CARGO_TOML_TPL DOCS_RS_TPL = true.
Proof. vm_compute. done. Qed.

Lemma lib_rs_template_parts :
  template_starts SRC_LIB_RS_TPL LIB_TITLE_TPL = true
  ∧ template_ends SRC_LIB_RS_TPL LIB_MODS_TPL = true.
Proof. vm_compute. done. Qed.

Lemma format_cargo_toml_head (family crate version features docs : string)
    (text : string) :
  format CARGO_TOML_TPL []
    [("family", family); ("crate", crate); ("version", version);
     ("features", features); ("docs_features", docs)] = inr text →
  has_prefix text (package_section crate version)
  ∧ contains text (description_line family)
  ∧ contains text (docs_rs_section docs).
Proof.
  intros Hf. destruct cargo_toml_template_parts as (H1 & H2 & H3).
  split_and!.
  - destruct (format_prefix _ _ _ _ H1 Hf) as (v & Hv & Hc).
    vm_compute in Hv. injection Hv as <-. exact Hc.
  - destruct (format_contains _ _ _ _ H2 Hf) as (v & Hv & Hc).
    vm_compute in Hv. injection Hv as <-. exact Hc.
  - destruct (format_contains _ _ _ _ H3 Hf) as (v & Hv & Hc).
    vm_compute in Hv. injection Hv as <-. exact Hc.
Qed.

Lemma format_lib_rs_parts (family mods crate svd2rust_version : string)
    (text : string) :
  format SRC_LIB_RS_TPL []
    [("family", family); ("mods", mods); ("crate", crate);
     ("svd2rust_version", svd2rust_version)] = inr text →
  has_prefix text (lib_title family)
  ∧ has_suffix text (lib_mods_section mods).
Proof.
  intros Hf. destruct lib_rs_template_parts as (H1 & H2).
  split.
  - destruct (format_prefix _ _ _ _ H1 Hf) as (v & Hv & Hc).
    vm_compute in Hv. injection Hv as <-. exact Hc.
  - destruct (format_suffix _ _ _ _ H2 Hf) as (v & Hv & Hc).
    vm_compute in Hv. injection Hv as <-. exact Hc.
Qed.

(** X7: the library entry point of a family opens with the title that
    names the family in upper case and closes, after the fixed lines of the
    generic module, with one declaration per collected device, in sorted
    order: the test of the device's feature and the public module of its
    name. *)
Theorem lib_rs_declares_modules
    (tbl : table) (family : string) (collected : list string) (a : artifacts) :
  render_family tbl family collected = inr a →
  make_mods (sorted collected) = inr (join nl (mod_decl <$> sorted collected))
  ∧ length (mod_decl <$> sorted collected) = length collected
  ∧ has_prefix (lib_rs a) (lib_title (upper family))
  ∧ has_suffix (lib_rs a)
      (lib_mods_section (join nl (mod_decl <$> sorted collected))).
Proof.
  intros Ha. apply render_family_inv in Ha as (_ & _ & Hl & _).
  unfold render_lib_rs in Hl.
  destruct (format_lib_rs_parts _ _ _ _ _ Hl) as [H1 H2].
  split_and!.
  - by rewrite make_mods_eq, sorted_idemp.
  - by rewrite length_fmap, sorted_length.
  - exact H1.
  - exact H2.
Qed.

Lemma lib_rs_declares_modules_witness :
  ∃ a, render_family sample_table "stm32f1" ["stm32f107"; "stm32f103"] = inr a
       ∧ has_prefix (lib_rs a) (lib_title (upper "stm32f1")).
Proof.
  destruct (render_family sample_table "stm32f1" ["stm32f107"; "stm32f103"])
    as [e|a] eqn:E; [vm_compute in E; discriminate E|].
  destruct (lib_rs_declares_modules sample_table "stm32f1"
              ["stm32f107"; "stm32f103"] a E) as (_ & _ & H & _).
  exists a. split; [reflexivity|exact H].
Defined.

(** X8: a manifest is rendered only for a family whose lowercased prefix is
    a key of [CRATE_DOC_FEATURES]; it opens with the package named by that
    lowercased prefix at the version of the script, describes the family
    by its prefix in upper case, and gives the documentation build the
    list of features found under the key, written as Python shows a
    list. *)
Theorem manifest_names_crate_and_docs (family features text : string) :
  render_cargo_toml family features = inr text →
  ∃ docs,
    CRATE_DOC_FEATURES !! lower family = Some docs
    ∧ has_prefix text (package_section (lower family) VERSION)
    ∧ contains text (description_line (upper family))
    ∧ contains text (docs_rs_section (str_of_list docs)).
Proof.
  unfold render_cargo_toml.
  destruct (CRATE_DOC_FEATURES !! lower family) as [docs|]; [|discriminate].
  intros Hf. exists docs. split; [reflexivity|].
  by apply (format_cargo_toml_head _ _ _ _ _ _ Hf).
Qed.

Lemma manifest_names_crate_and_docs_witness :
  ∃ text docs,
    render_cargo_toml "STM32F1" "stm32f103 = []" = inr text
    ∧ CRATE_DOC_FEATURES !! lower "STM32F1" = Some docs
    ∧ has_prefix text (package_section (lower "STM32F1") VERSION).
Proof.
  destruct (render_cargo_toml "STM32F1" "stm32f103 = []")
    as [e|text] eqn:E; [vm_compute in E; discriminate E|].
  destruct (manifest_names_crate_and_docs "STM32F1" "stm32f103 = []" text E)
    as (docs & H1 & H2 & _).
  exists text, docs. split_and!; [reflexivity|exact H1|exact H2].
Defined.

(** *** How the loop body and the loop end *)

(** X9: the loop body fails in one order.  A lowercased prefix that is no
    key of [CRATE_DOC_FEATURES] raises its [KeyError] first; then an empty
    list of devices raises [IndexError]; then a prefix that, as it
    stands, is no key of the reference table raises its [KeyError]; with
    none of these the four texts are rendered.  The table is asked for the
    prefix as the filename spells it, the fixed table for its lowercase
    form. *)
Theorem render_family_outcome
    (tbl : table) (family : string) (collected : list string) :
  (CRATE_DOC_FEATURES !! lower family = None →
     render_family tbl family collected = inl (KeyError (lower family)))
  ∧ (is_Some (CRATE_DOC_FEATURES !! lower family) → collected = [] →
       render_family tbl family collected = inl IndexError)
  ∧ (is_Some (CRATE_DOC_FEATURES !! lower family) → collected ≠ [] →
       tbl !! family = None →
       render_family tbl family collected = inl (KeyError family))
  ∧ (is_Some (CRATE_DOC_FEATURES !! lower family) → collected ≠ [] →
       is_Some (tbl !! family) →
       ∃ a, render_family tbl family collected = inr a).
Proof.
  split_and!.
  - apply render_family_doc_missing.
  - intros [docs Hdocs] ->. rewrite render_family_eq. cbn zeta.
    destruct (render_cargo_toml_total family (features_text (sorted []))
                docs Hdocs) as [c ->].
    reflexivity.
  - intros [docs Hdocs] Hne Hl. rewrite render_family_eq. cbn zeta.
    destruct (render_cargo_toml_total family
                (features_text (sorted collected)) docs Hdocs) as [c ->].
    destruct (sorted_head_some collected Hne) as [d Hd].
    cbn [bind]. unfold render_readme.
    by rewrite Hd, (make_device_rows_missing tbl family Hl).
  - intros [docs Hdocs] Hne [items Hl].
    by apply (render_family_total tbl family collected docs items).
Qed.

Lemma render_family_outcome_witness :
  render_family short_table "STM32F1" ["stm32f103"] = inl (KeyError "STM32F1")
  ∧ render_family short_table "stm32zz" ["stm32zz01"] = inl (KeyError "stm32zz").
Proof.
  destruct (render_family_outcome short_table "STM32F1" ["stm32f103"])
    as (_ & _ & H3 & _).
  destruct (render_family_outcome short_table "stm32zz" ["stm32zz01"])
    as (H1 & _).
  split.
  - apply H3.
    + eexists. vm_compute. reflexivity.
    + discriminate.
    + vm_compute. reflexivity.
  - apply H1. vm_compute. reflexivity.
Defined.

Lemma render_family_no_table_entry (tbl : table) (family : string)
    (collected docs : list string) :
  CRATE_DOC_FEATURES !! lower family = Some docs →
  collected ≠ [] →
  tbl !! family = None →
  render_family tbl family collected = inl (KeyError family).
Proof.
  intros Hdocs Hne Hl. rewrite render_family_eq. cbn zeta.
  destruct (render_cargo_toml_total family
              (features_text (sorted collected)) docs Hdocs) as [c ->].
  destruct (sorted_head_some collected Hne) as [d Hd].
  cbn [bind]. unfold render_readme.
  by rewrite Hd, (make_device_rows_missing tbl family Hl).
Qed.

(** The rendering of a collected family succeeds exactly when the two
    tables have it. *)
Lemma collected_renders_iff (tbl : table) (paths : list string)
    (family : string) (collected : list string) :
  (family, collected) ∈ collect paths →
  renders tbl (family, collected) ↔
  is_Some (CRATE_DOC_FEATURES !! lower family) ∧ is_Some (tbl !! family).
Proof.
  intros Hin. pose proof (collect_nonempty _ _ _ Hin) as Hne.
  unfold renders. cbn [fst snd]. split.
  - intros [a Ha].
    destruct (CRATE_DOC_FEATURES !! lower family) as [docs|] eqn:Hd.
    + split; [by eexists|].
      destruct (tbl !! family) as [items|] eqn:Hl; [by eexists|].
      by rewrite (render_family_no_table_entry tbl family collected docs) in Ha.
    + by rewrite (render_family_doc_missing tbl family collected Hd) in Ha.
  - intros [[docs Hd] [items Hl]].
    by apply (render_family_total tbl family collected docs items).
Qed.

(** X10: the rendering of the texts of a collected family, the part of
    the loop body that comes before the directory is made and the files
    are written, can fail in two ways only, both a [KeyError]: of the
    lowercased prefix when [CRATE_DOC_FEATURES] does not have it, or else
    of the prefix, as spelled, when the reference table does not have it.
    It raises neither [IndexError] nor [ValueError]: a collected family
    has a device, and the templates are well formed.  What the file
    system may raise afterwards is another matter. *)
Theorem collected_family_fails_with_key_error
    (tbl : table) (paths : list string)
    (family : string) (collected : list string) (e : exn) :
  (family, collected) ∈ collect paths →
  render_family tbl family collected = inl e →
  e ≠ IndexError ∧ e ≠ ValueError
  ∧ (CRATE_DOC_FEATURES !! lower family = None
     ∧ e = KeyError (lower family)
     ∨ is_Some (CRATE_DOC_FEATURES !! lower family)
       ∧ tbl !! family = None
       ∧ e = KeyError family).
Proof.
  intros Hin Hr. pose proof (collect_nonempty _ _ _ Hin) as Hne.
  destruct (CRATE_DOC_FEATURES !! lower family) as [docs|] eqn:Hd.
  - destruct (tbl !! family) as [items|] eqn:Hl.
    + destruct (render_family_total tbl family collected docs items Hd Hl Hne)
        as [a Ha].
      cbn [fst snd] in Ha. rewrite Ha in Hr. discriminate Hr.
    + rewrite (render_family_no_table_entry tbl family collected docs Hd Hne Hl)
        in Hr.
      injection Hr as <-. split_and!; [discriminate..|].
      right. split_and!; [by eexists|done|done].
  - rewrite (render_family_doc_missing tbl family collected Hd) in Hr.
    injection Hr as <-. split_and!; [discriminate..|]. by left.
Qed.

Lemma collected_family_fails_with_key_error_witness :
  KeyError "stm32zz" ≠ IndexError ∧ KeyError "stm32zz" ≠ ValueError
  ∧ (CRATE_DOC_FEATURES !! lower "stm32zz" = None
     ∧ KeyError "stm32zz" = KeyError (lower "stm32zz")
     ∨ is_Some (CRATE_DOC_FEATURES !! lower "stm32zz")
       ∧ sample_table !! "stm32zz" = None
       ∧ KeyError "stm32zz" = KeyError "stm32zz").
Proof.
  apply (collected_family_fails_with_key_error sample_table
           ["devices/stm32f103.yaml"; "devices/stm32zz01.yaml"]
           "stm32zz" ["stm32zz01"] (KeyError "stm32zz")).
  - vm_compute. right. left.
  - vm_compute. reflexivity.
Defined.

(** *** How the run ends *)

(** X11: what a run that ends with status zero needs: two words on the
    command line, a reference table that loads, a line from the operator,
    and for every collected family its lowercased prefix among the keys
    of [CRATE_DOC_FEATURES] and its prefix, as spelled, among the keys of
    the reference table.  The two conditions on the families are those
    under which every family renders, and no weaker ones are; whether the
    run then ends with status zero rests with the file system, which has
    to make the directories and take the files. *)
Theorem exit_zero_requires (w : world) :
  (exits_zero (run w).2 = true →
   ∃ prog dir tbl text,
     argv w = [prog; dir]
     ∧ table_file w = inr tbl
     ∧ operator w = Line text
     ∧ ∀ family collected,
         (family, collected) ∈ collect (glob_yaml dir (listing w)) →
         is_Some (CRATE_DOC_FEATURES !! lower family)
         ∧ is_Some (tbl !! family)
         ∧ renders tbl (family, collected))
  ∧ (∀ dir tbl,
       Forall (renders tbl) (collect (glob_yaml dir (listing w))) ↔
       ∀ family collected,
         (family, collected) ∈ collect (glob_yaml dir (listing w)) →
         is_Some (CRATE_DOC_FEATURES !! lower family)
         ∧ is_Some (tbl !! family)).
Proof.
  split.
  - unfold run.
    destruct (argv w) as [|prog [|dir [|x l]]] eqn:Hargv; try discriminate.
    unfold main.
    destruct (table_file w) as [e|tbl] eqn:Ht; [discriminate|].
    destruct (operator w) as [text| |] eqn:Ho; try discriminate.
    destruct (process tbl _) as [evs r] eqn:Hp.
    destruct r as [e|[]]; [discriminate|]. intros _.
    exists prog, dir, tbl, text. split_and!; try reflexivity.
    intros f c Hin.
    assert ((process tbl (collect (glob_yaml dir (listing w)))).2 = inr tt)
      as Hok by by rewrite Hp.
    apply process_ok_inv in Hok. rewrite Forall_forall in Hok.
    pose proof (Hok _ Hin) as Hr.
    destruct (proj1 (collected_renders_iff tbl _ f c Hin) Hr) as [H1 H2].
    done.
  - intros dir tbl. rewrite Forall_forall. split.
    + intros Hall f c Hin.
      exact (proj1 (collected_renders_iff tbl _ f c Hin) (Hall (f, c) Hin)).
    + intros Hall [f c] Hin.
      exact (proj2 (collected_renders_iff tbl _ f c Hin) (Hall f c Hin)).
Qed.

Lemma exit_zero_requires_witness :
  ∃ prog dir tbl text,
    argv world_one_file = [prog; dir]
    ∧ table_file world_one_file = inr tbl
    ∧ operator world_one_file = Line text
    ∧ ∀ family collected,
        (family, collected) ∈ collect (glob_yaml dir (listing world_one_file)) →
        is_Some (CRATE_DOC_FEATURES !! lower family)
        ∧ is_Some (tbl !! family)
        ∧ renders tbl (family, collected).
Proof.
  apply (proj1 (exit_zero_requires world_one_file)).
  vm_compute. reflexivity.
Defined.

(** X12: the script reaches its [sys.exit(1)] exactly when the command
    line has the name of the program and not exactly one word after it; it
    then prints the line of usage, which names the program, and does
    nothing else: the directory is not read, the table is not loaded, the
    operator is not asked.  A run that an exception ends is no such run,
    whatever status the interpreter gives the process. *)
Theorem usage_error_iff (w : world) :
  ((run w).2 = Exit 1 ↔
   ∃ prog rest, argv w = prog :: rest ∧ length rest ≠ 1%nat)
  ∧ (∀ prog rest, argv w = prog :: rest → length rest ≠ 1%nat →
       run w = ([EPrint ("Usage: " +:+ prog +:+ " <yaml directory>")], Exit 1)).
Proof.
  split.
  - split.
    + unfold run.
      destruct (argv w) as [|prog [|dir [|x l]]] eqn:Hargv; cbn [snd].
      * discriminate.
      * intros _. by exists prog, [].
      * destruct (main dir w) as [evs [e|u]]; discriminate.
      * intros _. by exists prog, (dir :: x :: l).
    + intros (prog & rest & Hargv & Hlen). unfold run. rewrite Hargv.
      destruct rest as [|dir [|x l]]; [done| |done]. by destruct Hlen.
  - intros prog rest Hargv Hlen. unfold run. rewrite Hargv.
    destruct rest as [|dir [|x l]]; [done| |done]. by destruct Hlen.
Qed.

Lemma usage_error_iff_witness :
  run (World [PROG] None (inr sample_table) Interrupt)
  = ([EPrint ("Usage: " +:+ PROG +:+ " <yaml directory>")], Exit 1).
Proof.
  apply (proj2 (usage_error_iff (World [PROG] None (inr sample_table) Interrupt))
           PROG []).
  - reflexivity.
  - discriminate.
Defined.

(** X13: the reference table is loaded before anything is shown.  The
    operator is asked exactly in the runs that have two words on the
    command line and a table that loads, whatever the directory holds; a
    table that does not load ends the run with its exception and without
    an event. *)
Theorem prompt_iff_table_loaded (w : world) :
  (EInput ENTER_TO_CONTINUE ∈ (run w).1 ↔
   ∃ prog dir tbl, argv w = [prog; dir] ∧ table_file w = inr tbl)
  ∧ (∀ prog dir e, argv w = [prog; dir] → table_file w = inl e →
       run w = ([], Uncaught e)).
Proof.
  split.
  - split.
    + unfold run.
      destruct (argv w) as [|prog [|dir [|x l]]] eqn:Hargv; cbn [fst].
      * intros H. by apply elem_of_nil in H.
      * intros [H|H]%elem_of_cons; [discriminate H|by apply elem_of_nil in H].
      * unfold main. destruct (table_file w) as [e|tbl] eqn:Ht.
        { intros H. by apply elem_of_nil in H. }
        intros _. by exists prog, dir, tbl.
      * intros [H|H]%elem_of_cons; [discriminate H|by apply elem_of_nil in H].
    + intros (prog & dir & tbl & Hargv & Ht).
      rewrite (run_main w prog dir Hargv). unfold main. rewrite Ht.
      destruct (operator w).
      * destruct (process tbl _) as [evs r]. cbn [fst].
        apply elem_of_app. left. unfold shown. set_solver.
      * cbn [fst]. unfold shown. set_solver.
      * cbn [fst]. unfold shown. set_solver.
  - intros prog dir e Hargv Ht.
    rewrite (run_main w prog dir Hargv). unfold main. by rewrite Ht.
Qed.

Lemma prompt_iff_table_loaded_witness :
  run (World [PROG; "devices"] (Some ["stm32f103.yaml"])
         (inl TableLoadError) (Line EmptyString))
  = ([], Uncaught TableLoadError).
Proof.
  apply (proj2 (prompt_iff_table_loaded
                  (World [PROG; "devices"] (Some ["stm32f103.yaml"])
                     (inl TableLoadError) (Line EmptyString)))
           PROG "devices" TableLoadError).
  - reflexivity.
  - reflexivity.
Defined.

(** *** The files of a completed run *)

Lemma sep_split_inj (c c' r r' : string) :
  has_sep c = false → has_sep c' = false →
  c +:+ String "/" r = c' +:+ String "/" r' → c = c'.
Proof.
  revert c'. induction c as [|x c IH]; intros [|x' c'].
  - done.
  - rewrite append_nil_l, append_cons. cbn [has_sep].
    intros _ [Hx _]%orb_false_iff [= <- _]. discriminate Hx.
  - rewrite append_nil_l, append_cons. cbn [has_sep].
    intros [Hx _]%orb_false_iff _ [= -> _]. discriminate Hx.
  - rewrite !append_cons. cbn [has_sep].
    intros [_ Hc]%orb_false_iff [_ Hc']%orb_false_iff [= -> Heq].
    f_equal. by apply IH.
Qed.

Lemma files_after_untouched (fs : gmap string string) (evs : list event)
    (p : string) :
  (∀ c, EWrite p c ∉ evs) → files_after fs evs !! p = fs !! p.
Proof.
  revert fs. induction evs as [|ev evs IH]; intros fs Hno; [done|].
  unfold files_after in *. cbn [foldl]. rewrite IH.
  - destruct ev as [| | |p' c']; try done. cbn [apply_event].
    apply lookup_insert_ne. intros ->. apply (Hno c'). left.
  - intros c Hin. apply (Hno c). by right.
Qed.

(** A family collected from a directory is a name of one to seven
    characters without a separator. *)
Lemma collected_family_is_name (dir : string) (names : list string)
    (family : string) (collected : list string) :
  Forall (λ n, has_sep n = false) names →
  (family, collected) ∈ collect (glob_yaml dir (Some names)) →
  family ≠ EmptyString ∧ has_sep family = false.
Proof.
  intros Hnames Hin.
  pose proof (dict_get_of_elem _ _ _ (collect_NoDup _) Hin) as Hget.
  destruct (dict_get_collect_Some _ _ _ Hget) as [_ Hne].
  destruct collected as [|d rest]; [done|].
  destruct (collected_device_has_file dir names family (d :: rest) d
              Hnames Hget) as (stem & Hv & Hs & _ & ->); [left|].
  rewrite Forall_forall in Hnames. pose proof (Hnames _ Hs) as Hn.
  split; [|by apply has_sep_take].
  destruct stem as [|x stem]; [done|]. by rewrite append_cons.
Qed.

Lemma elem_of_concat {A} (x : A) (ls : list (list A)) :
  x ∈ concat ls → ∃ l, l ∈ ls ∧ x ∈ l.
Proof.
  induction ls as [|l ls IH]; cbn [concat].
  - intros H. by apply elem_of_nil in H.
  - intros [H|H]%elem_of_app.
    + exists l. split; [left|done].
    + destruct (IH H) as (l' & Hl' & Hx). exists l'. split; [by right|done].
Qed.

Lemma writes_concat_written (tbl : table)
    (devices : list (string * list string)) :
  Forall (renders tbl) devices →
  length (writes (concat (written_for tbl <$> devices))) = 4 * length devices.
Proof.
  induction 1 as [|fd devices [a Ha] Hall IH]; [done|].
  rewrite fmap_cons, concat_cons, (written_for_renders tbl fd a Ha).
  unfold writes in *. rewrite omap_app, length_app, IH.
  simpl. lia.
Qed.

(** X14: what a completed run leaves on disk.  With the names of the
    directory free of separators, a run that ends with status zero has
    written four files for each collected family and nothing else; for a
    family whose lowercased prefix no other collected family shares, the
    manifest, the readme, the library entry point and the build script
    found afterwards under the directory of that name are the four texts
    rendered for the family, whatever was there and whatever the other
    families wrote. *)
Theorem completed_run_files
    (w : world) (prog dir : string) (names : list string)
    (tbl : table) (text : string)
    (family : string) (collected : list string) :
  argv w = [prog; dir] →
  listing w = Some names →
  Forall (λ n, has_sep n = false) names →
  table_file w = inr tbl →
  operator w = Line text →
  (run w).2 = Exit 0 →
  (family, collected) ∈ collect (glob_yaml dir (Some names)) →
  (∀ f' c', (f', c') ∈ collect (glob_yaml dir (Some names)) →
            lower f' = lower family → f' = family) →
  ∃ a,
    render_family tbl family collected = inr a
    ∧ length (writes (run w).1)
      = 4 * length (collect (glob_yaml dir (Some names)))
    ∧ ∀ fs,
        files_after fs (run w).1 !! (lower family +:+ "/Cargo.toml")
        = Some (cargo_toml a)
        ∧ files_after fs (run w).1 !! (lower family +:+ "/README.md")
          = Some (readme a)
        ∧ files_after fs (run w).1 !! (lower family +:+ "/src/lib.rs")
          = Some (lib_rs a)
        ∧ files_after fs (run w).1 !! (lower family +:+ "/build.rs")
          = Some (build_rs a).
Proof.
  intros Hargv Hlist Hnames Ht Ho Hexit Hin Huniq.
  rewrite (run_main w prog dir Hargv) in *.
  rewrite (main_confirmed w dir tbl text Ht Ho) in *. cbn zeta in *.
  rewrite Hlist in *. cbn [fst snd] in *.
  set (devices := collect (glob_yaml dir (Some names))) in *.
  destruct ((process tbl devices).2) as [e|[]] eqn:Hproc; [discriminate|].
  pose proof (process_ok_inv tbl devices tt Hproc) as Hall.
  assert (process tbl devices
          = (concat (written_for tbl <$> devices), inr tt)) as Hp.
  { rewrite <- (app_nil_r devices) at 1.
    rewrite (process_prefix tbl devices [] Hall). cbn. by rewrite app_nil_r. }
  rewrite Hp. cbn [fst].
  pose proof Hall as Hall'. rewrite Forall_forall in Hall'.
  destruct (Hall' _ Hin) as [a Ha]. cbn [fst snd] in Ha.
  exists a. split_and!.
  - exact Ha.
  - unfold writes. rewrite omap_app. cbn [shown omap app].
    by apply writes_concat_written.
  - intros fs.
    destruct (collected_family_is_name dir names family collected Hnames Hin)
      as [Hfne Hfs].
    pose proof (crate_paths_explicit (lower family)
                  (lower_not_nil _ Hfne)
                  (eq_trans (has_sep_lower family) Hfs)) as Hpaths.
    apply list_elem_of_split in Hin as Hsplit.
    destruct Hsplit as (l0 & l2 & Hd).
    assert (∀ p c, (p, c) ∈ writes (write_family (lower family) a) →
              files_after fs
                (shown devices ++ concat (written_for tbl <$> devices)) !! p
              = Some c) as Hfiles.
    { intros p c Hpc. rewrite Hd at 2.
      rewrite fmap_app, fmap_cons, concat_app, concat_cons.
      rewrite (written_for_renders tbl (family, collected) a Ha). cbn [fst].
      rewrite !app_assoc, files_after_app.
      rewrite files_after_untouched.
      - rewrite files_after_app. by apply files_after_write_family.
      - intros c' Hw.
        apply elem_of_concat in Hw as (evs & Hevs & Hw).
        apply list_elem_of_fmap in Hevs as ([f' c''] & -> & Hfd).
        unfold written_for in Hw. cbn [fst snd] in Hw.
        destruct (render_family tbl f' c'') as [e|a'];
          [by apply elem_of_nil in Hw|].
        assert ((f', c'') ∈ devices) as Hfd'.
        { rewrite Hd. apply elem_of_app. right. by right. }
        assert (f' ≠ family) as Hneq.
        { intros ->. pose proof (collect_NoDup (glob_yaml dir (Some names)))
            as Hnd. fold devices in Hnd. rewrite Hd in Hnd.
          rewrite fmap_app, fmap_cons in Hnd.
          apply NoDup_app in Hnd as (_ & _ & Hnd).
          apply NoDup_cons in Hnd as [Hnd _]. apply Hnd.
          apply list_elem_of_fmap. by exists (family, c''). }
        destruct (collected_family_is_name dir names f' c'' Hnames Hfd')
          as [Hf'ne Hf's].
        pose proof (crate_paths_explicit (lower f')
                      (lower_not_nil _ Hf'ne)
                      (eq_trans (has_sep_lower f') Hf's)) as Hpaths'.
        assert (p ∈ crate_paths (lower family)) as Hp1.
        { rewrite is_write_write_family in Hpc. unfold crate_paths.
          repeat (apply elem_of_cons in Hpc as [[= Hp' _]|Hpc];
                  [rewrite Hp'; by repeat constructor|]).
          by apply elem_of_nil in Hpc. }
        assert (p ∈ crate_paths (lower f')) as Hp2.
        { unfold write_family in Hw. unfold crate_paths.
          apply elem_of_cons in Hw as [Hw|Hw]; [discriminate Hw|].
          repeat (apply elem_of_cons in Hw as [[= Hp' _]|Hw];
                  [rewrite Hp'; by repeat constructor|]).
          by apply elem_of_nil in Hw. }
        rewrite Hpaths in Hp1. rewrite Hpaths' in Hp2.
        apply Hneq, (Huniq f' c''); [done|].
        assert (has_sep (lower f') = false) as Hs1
          by by rewrite has_sep_lower.
        assert (has_sep (lower family) = false) as Hs2
          by by rewrite has_sep_lower.
        repeat (apply elem_of_cons in Hp1 as [Hp1|Hp1];
                [subst p;
                 repeat (apply elem_of_cons in Hp2 as [Hp2|Hp2];
                         [symmetry in Hp2;
                          exact (sep_split_inj _ _ _ _ Hs1 Hs2 Hp2)|]);
                 by apply elem_of_nil in Hp2|]).
        by apply elem_of_nil in Hp1. }
    rewrite is_write_write_family in Hfiles.
    unfold crate_paths in Hpaths. injection Hpaths as E1 E2 E3 E4.
    rewrite E1, E2, E3, E4 in Hfiles.
    split_and!; apply Hfiles; by repeat constructor.
Qed.

Lemma completed_run_files_witness :
  ∃ a,
    render_family sample_table "stm32f1" ["stm32f103"] = inr a
    ∧ ∀ fs,
        files_after fs (run world_one_file).1 !! (lower "stm32f1" +:+ "/Cargo.toml")
        = Some (cargo_toml a).
Proof.
  destruct (completed_run_files world_one_file PROG "devices"
              ["stm32f103.yaml"] sample_table EmptyString
              "stm32f1" ["stm32f103"]) as (a & Ha & _ & Hfs).
  - reflexivity.
  - reflexivity.
  - repeat constructor.
  - reflexivity.
  - reflexivity.
  - vm_compute. reflexivity.
  - vm_compute. left.
  - intros f' c' Hin _. vm_compute in Hin.
    apply elem_of_cons in Hin as [Hin|Hin]; [|by apply elem_of_nil in Hin].
    by injection Hin as -> _.
  - exists a. split; [exact Ha|]. intros fs. apply (Hfs fs).
Defined.

End Extras.

